(** * Verification of [extractJson], the JSON-candidate extractor

    The extractor takes the raw text of a language-model response, trims it,
    looks for the first opening brace and scans forward with a brace counter,
    an in-string flag and an escape flag until the counter is back at zero.
    When the scan does not close, it falls back to the last closing brace.

    JavaScript strings are modelled as lists of UTF-16 code units, indices
    and the brace counter as [Z], and the [for] loop as a step-indexed
    function that returns [None] when its step budget is exhausted.  The
    calls to [console.log] have no effect on the result and are left out. *)

From Stdlib Require Import String Ascii List ZArith NArith Bool Lia.
Import ListNotations.
Open Scope Z_scope.

(** ** JavaScript strings *)

Module JS.

(** A string is a sequence of 16-bit code units. *)
Abbreviation code_unit := N (only parsing).
Abbreviation jsstring := (list N) (only parsing).

(** The value of a source literal made of ASCII characters. *)
Definition lit (s : string) : jsstring :=
  map N_of_ascii (list_ascii_of_string s).

Definition len (s : jsstring) : Z := Z.of_nat (length s).

(** [a === b] on two string values. *)
Fixpoint str_eqb (a b : jsstring) : bool :=
  match a, b with
  | [], [] => true
  | x :: a', y :: b' => N.eqb x y && str_eqb a' b'
  | _, _ => false
  end.

(** A value read out of a string by index: a one-unit string, or
    [undefined] when the index is out of range. *)
Definition at_index (s : jsstring) (i : Z) : option jsstring :=
  if i <? 0 then None
  else match nth_error s (Z.to_nat i) with
       | Some c => Some [c]
       | None => None
       end.

(** [v === literal] where [v] may be [undefined]. *)
Definition strict_eq (v : option jsstring) (l : jsstring) : bool :=
  match v with
  | Some s => str_eqb s l
  | None => false
  end.

Fixpoint isPrefix (p s : jsstring) : bool :=
  match p, s with
  | [], _ => true
  | x :: p', y :: s' => N.eqb x y && isPrefix p' s'
  | _ :: _, [] => false
  end.

Fixpoint indexOf_from (needle s : jsstring) (i : Z) : Z :=
  if isPrefix needle s then i
  else match s with
       | [] => -1
       | _ :: r => indexOf_from needle r (i + 1)
       end.

(** [s.indexOf(needle)]: the first index at which [needle] occurs, or -1. *)
Definition indexOf (s needle : jsstring) : Z := indexOf_from needle s 0.

Fixpoint lastIndexOf_from (needle s : jsstring) (i best : Z) : Z :=
  let best' := if isPrefix needle s then i else best in
  match s with
  | [] => best'
  | _ :: r => lastIndexOf_from needle r (i + 1) best'
  end.

(** [s.lastIndexOf(needle)]: the last index at which [needle] occurs, or -1. *)
Definition lastIndexOf (s needle : jsstring) : Z :=
  lastIndexOf_from needle s 0 (-1).

Definition clamp (n x : Z) : Z := Z.min (Z.max x 0) n.

(** [s.substring(a, b)]: both arguments are clamped to [0, s.length] and
    swapped when the first exceeds the second. *)
Definition substring (s : jsstring) (a b : Z) : jsstring :=
  let a' := clamp (len s) a in
  let b' := clamp (len s) b in
  let from := Z.min a' b' in
  let to := Z.max a' b' in
  firstn (Z.to_nat (to - from)) (skipn (Z.to_nat from) s).

(** White space and line terminators, the code units [trim] strips. *)
Definition isWhiteSpace (c : code_unit) : bool :=
  (N.eqb c 9 || N.eqb c 10 || N.eqb c 11 || N.eqb c 12 || N.eqb c 13 ||
   N.eqb c 32 || N.eqb c 160 || N.eqb c 5760 ||
   (N.leb 8192 c && N.leb c 8202) ||
   N.eqb c 8232 || N.eqb c 8233 || N.eqb c 8239 || N.eqb c 8287 ||
   N.eqb c 12288 || N.eqb c 65279)%bool.

Fixpoint trimStart (s : jsstring) : jsstring :=
  match s with
  | [] => []
  | c :: r => if isWhiteSpace c then trimStart r else s
  end.

Definition trimEnd (s : jsstring) : jsstring := rev (trimStart (rev s)).

(** [s.trim()] *)
Definition trim (s : jsstring) : jsstring := trimEnd (trimStart s).

End JS.

Import JS.

(** ** The extractor *)

Definition lbrace : jsstring := lit "{".
Definition rbrace : jsstring := lit "}".
Definition dquote : jsstring := [34%N].
(** The literal the loop compares [char] with to detect a backslash.  In the
    source it is written with four backslashes between the quotes, which
    denotes a string of two backslash code units. *)
Definition escLiteral : jsstring := lit "\\".

Record scanState : Type := mkScan {
  braceCount : Z;
  inString : bool;
  escape : bool;
  endIndex : Z
}.

Definition initScan : scanState :=
  {| braceCount := 0; inString := false; escape := false; endIndex := -1 |}.

(** One run of the [for] loop starting at index [i] in state [st].  Each
    iteration spends one unit of [fuel]; so does the final test of the loop
    condition.  [None] means the budget ran out. *)
Fixpoint scanLoop (fuel : nat) (jsonString : jsstring) (i : Z) (st : scanState)
  : option scanState :=
  match fuel with
  | O => None
  | S fuel' =>
    if i <? len jsonString then
      let char := at_index jsonString i in
      if escape st then
        scanLoop fuel' jsonString (i + 1)
          (mkScan (braceCount st) (inString st) false (endIndex st))
      else if strict_eq char escLiteral then
        scanLoop fuel' jsonString (i + 1)
          (mkScan (braceCount st) (inString st) true (endIndex st))
      else if strict_eq char dquote then
        scanLoop fuel' jsonString (i + 1)
          (mkScan (braceCount st) (negb (inString st)) (escape st) (endIndex st))
      else if negb (inString st) then
        if strict_eq char lbrace then
          scanLoop fuel' jsonString (i + 1)
            (mkScan (braceCount st + 1) (inString st) (escape st) (endIndex st))
        else if strict_eq char rbrace then
          let n := braceCount st - 1 in
          if n =? 0 then
            Some (mkScan n (inString st) (escape st) i)
          else
            scanLoop fuel' jsonString (i + 1)
              (mkScan n (inString st) (escape st) (endIndex st))
        else scanLoop fuel' jsonString (i + 1) st
      else scanLoop fuel' jsonString (i + 1) st
    else Some st
  end.

(** The body of [extractJson] with an explicit step budget for its loop. *)
Definition extractJson_fuel (fuel : nat) (text : jsstring) : option jsstring :=
  let jsonString := trim text in
  let firstBrace := indexOf jsonString lbrace in
  if negb (firstBrace =? -1) then
    match scanLoop fuel jsonString firstBrace initScan with
    | None => None
    | Some st =>
      if negb (endIndex st =? -1) then
        Some (substring jsonString firstBrace (endIndex st + 1))
      else
        let lastBrace := lastIndexOf jsonString rbrace in
        if negb (lastBrace =? -1) then
          Some (substring jsonString firstBrace (lastBrace + 1))
        else Some jsonString
    end
  else Some jsonString.

(** [extractJson text]: the loop visits each index of the trimmed text at
    most once, so a budget of one more than the length of [text] is given. *)
Definition extractJson (text : jsstring) : option jsstring :=
  extractJson_fuel (S (length text)) text.

(** ** The loop as a function of the text that remains to be read *)

(** [closeOffset l d s]: reading [l] with brace counter [d] and in-string
    flag [s], the offset in [l] of the closing brace that brings the counter
    to zero, when there is one.  This is the loop with the escape flag left
    out: lemma [strict_eq_escLiteral] shows that the flag is never set. *)
Fixpoint closeOffset (l : jsstring) (d : Z) (s : bool) : option nat :=
  match l with
  | [] => None
  | c :: r =>
    if N.eqb c 34 then option_map S (closeOffset r d (negb s))
    else if s then option_map S (closeOffset r d s)
    else if N.eqb c 123 then option_map S (closeOffset r (d + 1) s)
    else if N.eqb c 125 then
      if d - 1 =? 0 then Some O
      else option_map S (closeOffset r (d - 1) s)
    else option_map S (closeOffset r d s)
  end.

(** What [extractJson] returns on the trimmed text [t], read off the list. *)
Definition extractTrimmed (t : jsstring) : jsstring :=
  let firstBrace := indexOf t lbrace in
  if firstBrace =? -1 then t
  else match closeOffset (skipn (Z.to_nat firstBrace) t) 0 false with
       | Some k => substring t firstBrace (firstBrace + Z.of_nat k + 1)
       | None =>
         let lastBrace := lastIndexOf t rbrace in
         if lastBrace =? -1 then t
         else substring t firstBrace (lastBrace + 1)
       end.

(** The strict scan of the trimmed text of [text] finds no closing position:
    a first opening brace exists and the loop ends with [endIndex] at -1. *)
Definition scanFails (text : jsstring) : Prop :=
  indexOf (trim text) lbrace <> -1 /\
  option_map endIndex
    (scanLoop (S (length text)) (trim text) (indexOf (trim text) lbrace) initScan)
  = Some (-1).

(** A string with no white space at either end. *)
Definition trimmed (s : jsstring) : Prop :=
  trimStart s = s /\ trimStart (rev s) = rev s.


(** ** Statements about the result *)

(** [r] runs from the first opening brace of [t] through its last closing
    brace, both included. *)
Definition spansFirstToLast (t r : jsstring) : Prop :=
  exists pre mid post,
    t = pre ++ r ++ post /\ r = [123%N] ++ mid ++ [125%N] /\
    ~ In 123%N pre /\ ~ In 125%N post.

(** [r] is the text of [t] from its first opening brace to its end. *)
Definition fromFirstBrace (t r : jsstring) : Prop :=
  exists pre rest, t = pre ++ r /\ r = 123%N :: rest /\ ~ In 123%N pre.

(** ** JSON texts

    The claims about well-formed objects need to say what a well-formed JSON
    object is.  The grammar below is the one [JSON.parse] accepts (RFC 8259),
    written over code units. *)

Module Json.

Definition isWs (c : code_unit) : bool :=
  (N.eqb c 32 || N.eqb c 9 || N.eqb c 10 || N.eqb c 13)%bool.

Definition isDigit (c : code_unit) : bool := (N.leb 48 c && N.leb c 57)%bool.

Definition isHex (c : code_unit) : bool :=
  (isDigit c || (N.leb 65 c && N.leb c 70) || (N.leb 97 c && N.leb c 102))%bool.

(** A character that stands for itself inside a string. *)
Definition isUnescaped (c : code_unit) : bool :=
  (N.leb 32 c && negb (N.eqb c 34) && negb (N.eqb c 92))%bool.

(** A character that may follow a backslash:
    quote, backslash, slash, b, f, n, r, t. *)
Definition isEscapable (c : code_unit) : bool :=
  (N.eqb c 34 || N.eqb c 92 || N.eqb c 47 || N.eqb c 98 || N.eqb c 102 ||
   N.eqb c 110 || N.eqb c 114 || N.eqb c 116)%bool.

Definition ws (s : jsstring) : Prop := forallb isWs s = true.

Definition digits (s : jsstring) : Prop := s <> [] /\ forallb isDigit s = true.

(** The characters between the quotes of a string. *)
Inductive chars : jsstring -> Prop :=
| chars_nil : chars []
| chars_plain c r : isUnescaped c = true -> chars r -> chars (c :: r)
| chars_escape c r : isEscapable c = true -> chars r -> chars (92%N :: c :: r)
| chars_unicode h1 h2 h3 h4 r :
    forallb isHex [h1; h2; h3; h4] = true -> chars r ->
    chars (92%N :: 117%N :: h1 :: h2 :: h3 :: h4 :: r).

Inductive str : jsstring -> Prop :=
| str_quoted b : chars b -> str (34%N :: b ++ [34%N]).

Inductive number : jsstring -> Prop :=
| number_parts sign int frac exp :
    sign = [] \/ sign = [45%N] ->
    int = [48%N] \/ (digits int /\ hd 48%N int <> 48%N) ->
    frac = [] \/ (exists ds, digits ds /\ frac = 46%N :: ds) ->
    exp = [] \/ (exists e sg ds, (e = 101%N \/ e = 69%N) /\
                   (sg = [] \/ sg = [43%N] \/ sg = [45%N]) /\
                   digits ds /\ exp = e :: sg ++ ds) ->
    number (sign ++ int ++ frac ++ exp).

Inductive value : jsstring -> Prop :=
| value_false : value (lit "false")
| value_null : value (lit "null")
| value_true : value (lit "true")
| value_str s : str s -> value s
| value_number s : number s -> value s
| value_object s : object s -> value s
| value_array s : array s -> value s
with object : jsstring -> Prop :=
| object_empty w : ws w -> object (123%N :: w ++ [125%N])
| object_members m : members m -> object (123%N :: m ++ [125%N])
with members : jsstring -> Prop :=
| members_one m : member m -> members m
| members_more m ms : member m -> members ms -> members (m ++ 44%N :: ms)
with member : jsstring -> Prop :=
| member_pair w1 k w2 w3 v w4 :
    ws w1 -> str k -> ws w2 -> ws w3 -> value v -> ws w4 ->
    member (w1 ++ k ++ w2 ++ 58%N :: w3 ++ v ++ w4)
with array : jsstring -> Prop :=
| array_empty w : ws w -> array (91%N :: w ++ [93%N])
| array_elements e : elements e -> array (91%N :: e ++ [93%N])
with elements : jsstring -> Prop :=
| elements_one w1 v w2 : ws w1 -> value v -> ws w2 -> elements (w1 ++ v ++ w2)
| elements_more w1 v w2 e :
    ws w1 -> value v -> ws w2 -> elements e ->
    elements (w1 ++ v ++ w2 ++ 44%N :: e).

Scheme value_mind := Minimality for value Sort Prop
  with object_mind := Minimality for object Sort Prop
  with members_mind := Minimality for members Sort Prop
  with member_mind := Minimality for member Sort Prop
  with array_mind := Minimality for array Sort Prop
  with elements_mind := Minimality for elements Sort Prop.

Combined Scheme json_mutind from
  value_mind, object_mind, members_mind, member_mind, array_mind, elements_mind.

(** Some string of the text holds an escaped quote: a backslash that is
    followed at once by a quote. *)
Fixpoint backslashQuote (l : jsstring) : bool :=
  match l with
  | [] => false
  | c :: r =>
    match r with
    | d :: _ => (N.eqb c 92 && N.eqb d 34) || backslashQuote r
    | [] => false
    end
  end.

End Json.

(** ** The scan as the specification words it

    This second reader does not come from the source.  It follows the
    algorithm of the specification: an escape flag that is set by a backslash
    and consumed by the character after it, which is then skipped for quote
    toggling and brace counting.  It is here to be compared with the source
    loop on the inputs where the two differ. *)

Fixpoint closeOffsetIntended (l : jsstring) (d : Z) (s e : bool) : option nat :=
  match l with
  | [] => None
  | c :: r =>
    if e then option_map S (closeOffsetIntended r d s false)
    else if N.eqb c 92 then option_map S (closeOffsetIntended r d s true)
    else if N.eqb c 34 then option_map S (closeOffsetIntended r d (negb s) e)
    else if s then option_map S (closeOffsetIntended r d s e)
    else if N.eqb c 123 then option_map S (closeOffsetIntended r (d + 1) s e)
    else if N.eqb c 125 then
      if d - 1 =? 0 then Some O
      else option_map S (closeOffsetIntended r (d - 1) s e)
    else option_map S (closeOffsetIntended r d s e)
  end.

(** The brace counter and the two flags of the specification's scan after
    the whole of [l] has been read, without the stop at zero. *)
Fixpoint trackIntended (l : jsstring) (d : Z) (s e : bool) : Z * bool * bool :=
  match l with
  | [] => (d, s, e)
  | c :: r =>
    if e then trackIntended r d s false
    else if N.eqb c 92 then trackIntended r d s true
    else if N.eqb c 34 then trackIntended r d (negb s) e
    else if s then trackIntended r d s e
    else if N.eqb c 123 then trackIntended r (d + 1) s e
    else if N.eqb c 125 then trackIntended r (d - 1) s e
    else trackIntended r d s e
  end.

(** Balanced, as the glossary of the specification has it: the brace
    nesting of [y], tracked outside of string literals, returns to zero net
    depth by its final character.  The final character is a closing brace
    that stands outside of any string and is not escaped, and it takes the
    depth from one to zero.  Strings and escapes are read as the
    specification reads them, not as the source loop does. *)
Definition balanced (y : jsstring) : Prop :=
  exists body, y = body ++ [125%N] /\
               trackIntended body 0 false false = (1, false, false).

(** The extractor on a trimmed text, over any reader [read l d] that scans
    [l] from outside a string with brace counter [d]. *)
Definition extractWith (read : jsstring -> Z -> option nat) (t : jsstring)
  : jsstring :=
  let firstBrace := indexOf t lbrace in
  if firstBrace =? -1 then t
  else match read (skipn (Z.to_nat firstBrace) t) 0 with
       | Some k => substring t firstBrace (firstBrace + Z.of_nat k + 1)
       | None =>
         let lastBrace := lastIndexOf t rbrace in
         if lastBrace =? -1 then t
         else substring t firstBrace (lastBrace + 1)
       end.

Definition readSource (l : jsstring) (d : Z) : option nat := closeOffset l d false.
Definition readIntended (l : jsstring) (d : Z) : option nat :=
  closeOffsetIntended l d false false.

Definition extractIntended (text : jsstring) : jsstring :=
  extractWith readIntended (trim text).

(** ** Reading through a piece of text *)

Definition shift (n : nat) (o : option nat) : option nat := option_map (Nat.add n) o.

(** A reader passes [l]: from outside a string it reads through [l] without
    stopping, and goes on behind it with the same brace counter. *)
Definition passes (read : jsstring -> Z -> option nat) (l : jsstring) : Prop :=
  forall d rest, 0 < d ->
    read (l ++ rest) d = shift (length l) (read rest d).

(** Code units other than quote, backslash and the two braces. *)
Definition isPlain (c : code_unit) : bool :=
  negb (N.eqb c 34 || N.eqb c 92 || N.eqb c 123 || N.eqb c 125).

(** ** Inputs used below *)

(** Inputs are written with a helper for the double quote and one for the
    backslash. *)
Definition q : jsstring := dquote.
Definition bs : jsstring := [92%N].

Definition sample_plain : jsstring :=
  lit "Here: {" ++ q ++ lit "score" ++ q ++ lit ": 94} done".
Definition sample_object : jsstring :=
  lit "{" ++ q ++ lit "score" ++ q ++ lit ": 94}".
Definition closeBeforeOpen : jsstring := lit "}a{".
Definition proseThenOpen : jsstring := lit "a{".
Definition noBraceText : jsstring := lit "  no json here  ".
Definition openInString : jsstring := lit "x {" ++ q ++ lit "a}".
Definition truncatedText : jsstring := lit "{" ++ q ++ lit "score".

(** Shortened forms of the two responses the source file tries the
    extractor on: one cut inside the feedback string, one complete. *)
Definition responsePartial : jsstring :=
  lit "{" ++ q ++ lit "feedback" ++ q ++ lit ": " ++ q ++
  lit "Hi {{STUDENT_NAME}}, such as".
Definition responsePartialCut : jsstring :=
  lit "{" ++ q ++ lit "feedback" ++ q ++ lit ": " ++ q ++
  lit "Hi {{STUDENT_NAME}}".
Definition responseFuller : jsstring :=
  lit "{" ++ q ++ lit "feedback" ++ q ++ lit ": " ++ q ++
  lit "Hi {{STUDENT_NAME}}, not " ++ bs ++ q ++ lit "optimized," ++ bs ++ q ++
  lit " However," ++ q ++ lit "}".

(** Objects with an escaped quote in a string value. *)
Definition objEscClose : jsstring :=
  lit "{" ++ q ++ lit "a" ++ q ++ lit ":" ++ q ++ bs ++ q ++ lit "}" ++ q ++ lit "}".
Definition objEscCloseCut : jsstring :=
  lit "{" ++ q ++ lit "a" ++ q ++ lit ":" ++ q ++ bs ++ q ++ lit "}".
Definition objEscTwo : jsstring :=
  lit "{" ++ q ++ lit "a" ++ q ++ lit ":" ++ q ++ bs ++ q ++ q ++ lit "," ++
  q ++ lit "b" ++ q ++ lit ":" ++ q ++ lit "}" ++ q ++ lit "}".
Definition objEscTwoCut : jsstring :=
  lit "{" ++ q ++ lit "a" ++ q ++ lit ":" ++ q ++ bs ++ q ++ q ++ lit "," ++
  q ++ lit "b" ++ q ++ lit ":" ++ q ++ lit "}".
(** A balanced object with one escaped quote. *)
Definition oddEscaped : jsstring :=
  lit "{" ++ q ++ lit "a" ++ q ++ lit ":" ++ q ++ lit "say " ++ bs ++ q ++ lit "hi"
  ++ q ++ lit "}".
Definition proseBefore : jsstring := lit "Result: ".
Definition proseAfter : jsstring := lit " (end)".

(** ** The grading route: extraction by first and last brace

    The route handler trims the model text and, when it holds both an opening
    and a closing brace, cuts it from the first opening brace through the
    last closing brace. *)

Definition extractFirstToLast (text : jsstring) : jsstring :=
  let jsonString := trim text in
  let firstBrace := indexOf jsonString lbrace in
  let lastBrace := lastIndexOf jsonString rbrace in
  if negb (firstBrace =? -1) && negb (lastBrace =? -1) then
    substring jsonString firstBrace (lastBrace + 1)
  else jsonString.

(** ** The grading route: escaping line breaks between quotes

    [replaceUnit c rep s] is [s.replace(/c/g, rep)] for a pattern of one
    character and a replacement without dollar sign: every [c] becomes
    [rep]. *)

Definition replaceUnit (c : code_unit) (rep : jsstring) (s : jsstring) : jsstring :=
  flat_map (fun x => if N.eqb x c then rep else [x]) s.

(** The callback of the route: the text between two quotes with every line
    feed replaced by backslash n, then every carriage return by
    backslash r. *)
Definition escapeBreaks (p1 : jsstring) : jsstring :=
  replaceUnit 13 (lit "\r") (replaceUnit 10 (lit "\n") p1).

(** The global replace over the pattern quote, any run of non-quotes,
    quote.  The matcher pairs each quote with the next one; [pending] holds
    the characters read since an opening quote.  A last quote without a
    partner is not a match, and the text from it on is kept as it is. *)
Fixpoint fixScan (s : jsstring) (pending : option jsstring) : jsstring :=
  match s with
  | [] =>
    match pending with
    | None => []
    | Some body => 34%N :: body
    end
  | c :: r =>
    match pending with
    | None => if N.eqb c 34 then fixScan r (Some []) else c :: fixScan r None
    | Some body =>
      if N.eqb c 34 then 34%N :: escapeBreaks body ++ 34%N :: fixScan r None
      else fixScan r (Some (body ++ [c]))
    end
  end.

Definition fixedJson (jsonString : jsstring) : jsstring := fixScan jsonString None.

(** The text the grading route hands to [JSON.parse]. *)
Definition routeCandidate (text : jsstring) : jsstring :=
  fixedJson (extractFirstToLast text).

(** The number of occurrences of a code unit. *)
Definition countUnit (c : code_unit) (s : jsstring) : nat :=
  length (filter (N.eqb c) s).

(** ** The structured route: removing a markdown fence

    [cleanAndParse] removes a leading fence, with or without the word json,
    and a trailing fence, and hands the rest to [JSON.parse]. *)

Definition fence : jsstring := lit "```".
Definition fenceJson : jsstring := lit "```json".

(** [s.startsWith(p)] *)
Definition startsWith (s p : jsstring) : bool := isPrefix p s.

(** [s.replace(/^P\s*/, '')] for a literal [P]: the pattern is anchored at
    the start, so it matches only when [s] starts with [P], and then takes
    [P] and all the white space that follows it. *)
Definition stripLead (p s : jsstring) : jsstring :=
  if isPrefix p s then trimStart (skipn (length p) s) else s.

(** [s.replace(/\s*```$/, '')]: the pattern must end at the end of [s], so
    it matches only when [s] ends with the fence, and the leftmost match
    starts at the white space that precedes the fence. *)
Definition stripTrailFence (s : jsstring) : jsstring :=
  if isPrefix (rev fence) (rev s)
  then trimEnd (rev (skipn (length fence) (rev s)))
  else s.

(** The text [cleanAndParse] hands to the parser. *)
Definition cleanFence (responseText : jsstring) : jsstring :=
  let cleaned := responseText in
  if startsWith cleaned fenceJson then
    stripTrailFence (stripLead fenceJson cleaned)
  else if startsWith cleaned fence then
    stripTrailFence (stripLead fence cleaned)
  else cleaned.

(** The opening fences the cleaner knows: the fence with the word json, or
    the bare fence when the text after it does not start with json. *)
Definition fenceTag (tag rest : jsstring) : Prop :=
  tag = fenceJson \/ (tag = fence /\ startsWith rest (lit "json") = false).

(** ** The structured route: counting words

    [s.split(/\s+/)]: the text is cut at every maximal run of white space.
    [cur] is the piece being read and [inSep] tells that the last character
    was white space.  A run at the start or at the end leaves an empty
    piece, and the empty text gives one empty piece. *)

Fixpoint splitWs (s cur : jsstring) (inSep : bool) : list jsstring :=
  match s with
  | [] => [cur]
  | c :: r =>
    if isWhiteSpace c then
      if inSep then splitWs r [] true else cur :: splitWs r [] true
    else splitWs r (cur ++ [c]) false
  end.

Definition split_ws (s : jsstring) : list jsstring := splitWs s [] false.

Definition wordCount (essayText : jsstring) : nat :=
  length (filter (fun w => 0 <? len w) (split_ws (trim essayText))).

(** A word: a non-empty text without white space. *)
Definition isWord (w : jsstring) : Prop :=
  w <> [] /\ forallb (fun c => negb (isWhiteSpace c)) w = true.

(** A separator: a non-empty run of white space. *)
Definition isSep (s : jsstring) : Prop :=
  s <> [] /\ forallb isWhiteSpace s = true.

(** Further words, each with the separator before it, written out. *)
Definition gaps (items : list (jsstring * jsstring)) : jsstring :=
  flat_map (fun p => fst p ++ snd p) items.

Definition wellSpaced (items : list (jsstring * jsstring)) : Prop :=
  Forall (fun p => isSep (fst p) /\ isWord (snd p)) items.

(** ** Both routes: filling in the system prompt

    [getSubstitution] expands the dollar patterns of a replacement text for
    a search by string, where there are no captures: two dollars give one,
    dollar ampersand the matched text, dollar backquote the text before the
    match, dollar quote the text after it; any other dollar stands for
    itself. *)

Fixpoint getSubstitution (matched before after template : jsstring) : jsstring :=
  match template with
  | [] => []
  | c :: r =>
    if N.eqb c 36 then
      match r with
      | [] => [36%N]
      | d :: r' =>
        if N.eqb d 36 then 36%N :: getSubstitution matched before after r'
        else if N.eqb d 38 then matched ++ getSubstitution matched before after r'
        else if N.eqb d 96 then before ++ getSubstitution matched before after r'
        else if N.eqb d 39 then after ++ getSubstitution matched before after r'
        else 36%N :: getSubstitution matched before after r
      end
    else c :: getSubstitution matched before after r
  end.

(** [s.replace(searchValue, replaceValue)] with two strings: only the first
    occurrence is replaced. *)
Definition replaceFirst (s searchValue replaceValue : jsstring) : jsstring :=
  let pos := indexOf s searchValue in
  if pos =? -1 then s
  else
    let preceding := substring s 0 pos in
    let following := substring s (pos + len searchValue) (len s) in
    preceding ++ getSubstitution searchValue preceding following replaceValue
              ++ following.

Definition filmPlaceholder : jsstring := lit "{{FILM_NAME}}".
Definition studentPlaceholder : jsstring := lit "{{STUDENT_NAME}}".

(** [finalSystemPrompt]; [student] is the text put for the student name,
    which differs between the two routes. *)
Definition finalSystemPrompt (promptInstruction movie student : jsstring) : jsstring :=
  replaceFirst (replaceFirst promptInstruction filmPlaceholder movie)
               studentPlaceholder student.

(** [text] occurs in [s]. *)
Definition occursIn (text s : jsstring) : Prop :=
  exists u v, s = u ++ text ++ v.

(** The first occurrence of [pat] in [a ++ pat ++ rest] is the one after
    [a]. *)
Definition firstOccurrence (pat a rest : jsstring) : Prop :=
  forall u v, a ++ pat ++ rest = u ++ pat ++ v -> (length a <= length u)%nat.

(** The prompt the route starts from: the system prompt of the request,
    or the default prompt when the request has none or an empty one.
    [None] stands for a request without the field. *)
Definition promptInstruction (DEFAULT_SYSTEM_PROMPT : jsstring)
           (systemPrompt : option jsstring) : jsstring :=
  match systemPrompt with
  | Some p => if len p =? 0 then DEFAULT_SYSTEM_PROMPT else p
  | None => DEFAULT_SYSTEM_PROMPT
  end.

(** The system prompt of the chat, from the request to the filled text. *)
Definition routeSystemPrompt (DEFAULT_SYSTEM_PROMPT : jsstring)
           (systemPrompt : option jsstring) (movie student : jsstring) : jsstring :=
  finalSystemPrompt (promptInstruction DEFAULT_SYSTEM_PROMPT systemPrompt)
                    movie student.


(** ** Both routes: the chat history *)

Inductive role : Type := User | Model.

Record content : Type := mkContent { c_role : role; c_text : jsstring }.

Record moduleInfo : Type := mkModule {
  m_id : Z; m_movie : jsstring; m_details : jsstring; m_question : jsstring
}.

Record example (G : Type) : Type := mkExample {
  ex_module : Z; ex_student_essay : jsstring; ex_grade : G; ex_feedback : jsstring
}.
Arguments ex_module {G}.
Arguments ex_student_essay {G}.
Arguments ex_grade {G}.
Arguments ex_feedback {G}.

(** [modules.find((m) => m.id === id)] *)
Definition findModule (modules : list moduleInfo) (id : Z) : option moduleInfo :=
  find (fun m => m_id m =? id) modules.

Definition acknowledgement : jsstring :=
  lit "Understood. I will provide a grade and feedback in strict JSON format.".

(** The history the route starts the chat with.  [createPrompt] is the
    prompt template and [stringify] stands for [JSON.stringify] of the score
    and feedback of an example; the loop pushes two entries for every
    example whose module is found. *)
Definition buildHistory {G : Type}
           (createPrompt : moduleInfo -> jsstring -> jsstring)
           (stringify : G -> jsstring -> jsstring)
           (modules : list moduleInfo) (examples : list (example G))
           (systemPrompt : jsstring) : list content :=
  let history := [mkContent User systemPrompt; mkContent Model acknowledgement] in
  if (0 <? length examples)%nat then
    fold_left
      (fun history ex =>
         match findModule modules (ex_module ex) with
         | Some exModule =>
           (history ++ [mkContent User (createPrompt exModule (ex_student_essay ex))])
             ++ [mkContent Model (stringify (ex_grade ex) (ex_feedback ex))]
         | None => history
         end)
      examples history
  else history.

(** An example whose module is in the list. *)
Definition knownModule {G : Type} (modules : list moduleInfo) (ex : example G) : bool :=
  match findModule modules (ex_module ex) with
  | Some _ => true
  | None => false
  end.

(** The two turns an example adds to the history. *)
Definition exampleTurns {G : Type}
           (createPrompt : moduleInfo -> jsstring -> jsstring)
           (stringify : G -> jsstring -> jsstring)
           (modules : list moduleInfo) (ex : example G) : list content :=
  match findModule modules (ex_module ex) with
  | Some exModule =>
    [mkContent User (createPrompt exModule (ex_student_essay ex));
     mkContent Model (stringify (ex_grade ex) (ex_feedback ex))]
  | None => []
  end.

(** The number of places in [s] where a word starts: a character that is
    not white space and comes first or after white space.  [afterWs] tells
    whether the character before [s] was white space or the start. *)
Fixpoint wordStarts (s : jsstring) (afterWs : bool) : nat :=
  match s with
  | [] => 0
  | c :: r =>
    if isWhiteSpace c then wordStarts r true
    else (if afterWs then 1 else 0) + wordStarts r false
  end.

(** What [afterWs] is behind a text [a] that was entered with [p]. *)
Fixpoint endsWs (a : jsstring) (p : bool) : bool :=
  match a with
  | [] => p
  | c :: r => endsWs r (isWhiteSpace c)
  end.

(** * Lemmas and theorems *)

Example extract_sample_plain : extractJson sample_plain = Some sample_object.
Proof. vm_compute. reflexivity. Qed.

Example escLiteral_two_units : escLiteral = [92%N; 92%N].
Proof. reflexivity. Qed.

Example extract_truncatedText : extractJson truncatedText = Some truncatedText.
Proof. vm_compute. reflexivity. Qed.

(** The cut response has no closing brace of its own; the fallback finds the
    braces of the placeholder inside the string. *)
Example extract_responsePartial :
  extractJson responsePartial = Some responsePartialCut.
Proof. vm_compute. reflexivity. Qed.

(** The complete response has two escaped quotes, whose effects on the
    in-string flag cancel, and is returned whole. *)
Example extract_responseFuller : extractJson responseFuller = Some responseFuller.
Proof. vm_compute. reflexivity. Qed.

(** ** The loop and its closed form *)

Section Loop.

Lemma len_app (a b : jsstring) : len (a ++ b) = len a + len b.
Proof. unfold len. rewrite length_app. lia. Qed.

Lemma len_nonneg (a : jsstring) : 0 <= len a.
Proof. unfold len. lia. Qed.

Lemma at_index_app (pre : jsstring) (c : code_unit) (r : jsstring) :
  at_index (pre ++ c :: r) (len pre) = Some [c].
Proof.
  unfold at_index, len.
  destruct (Z.ltb_spec (Z.of_nat (length pre)) 0) as [H|_]; [lia|].
  rewrite Nat2Z.id, nth_error_app2 by lia.
  now rewrite Nat.sub_diag.
Qed.

(** The comparison that should detect a backslash never succeeds: a value
    read by index has one code unit and the literal has two. *)
Lemma strict_eq_escLiteral (s : jsstring) (i : Z) :
  strict_eq (at_index s i) escLiteral = false.
Proof.
  unfold at_index.
  destruct (i <? 0); [reflexivity|].
  destruct (nth_error s (Z.to_nat i)) as [c|]; [|reflexivity].
  cbn. now rewrite andb_false_r.
Qed.

(** Hence no state the loop reaches has the escape flag set. *)
Lemma scanLoop_escape_unset (fuel : nat) (s : jsstring) :
  forall i st st',
    escape st = false -> scanLoop fuel s i st = Some st' -> escape st' = false.
Proof.
  induction fuel as [|f IH]; intros i st st' He H; [discriminate H|].
  cbn [scanLoop] in H. rewrite He, strict_eq_escLiteral in H.
  repeat match type of H with
  | (if ?b then _ else _) = _ => destruct b
  | (let _ := _ in _) = _ => cbv zeta in H
  end;
  try (apply IH in H; [exact H|assumption || reflexivity]);
  injection H as <-; assumption || reflexivity.
Qed.

Lemma strict_eq_unit (c d : code_unit) :
  strict_eq (Some [c]) [d] = N.eqb c d.
Proof. cbn. now rewrite andb_true_r. Qed.

Lemma scanLoop_closeOffset (l : jsstring) :
  forall (fuel : nat) (pre : jsstring) (st : scanState),
    (length l < fuel)%nat -> escape st = false -> endIndex st = -1 ->
    option_map endIndex (scanLoop fuel (pre ++ l) (len pre) st)
    = Some (match closeOffset l (braceCount st) (inString st) with
            | Some k => len pre + Z.of_nat k
            | None => -1
            end).
Proof.
  induction l as [|c r IH]; intros fuel pre st Hf He Hi.
  - destruct fuel as [|f]; [simpl in Hf; lia|].
    simpl. rewrite app_nil_r, Z.ltb_irrefl. simpl. now rewrite Hi.
  - destruct fuel as [|f]; [simpl in Hf; lia|].
    simpl in Hf.
    assert (Hstep : forall st', escape st' = false -> endIndex st' = -1 ->
      option_map endIndex (scanLoop f (pre ++ c :: r) (len pre + 1) st')
      = Some (match option_map S (closeOffset r (braceCount st') (inString st')) with
              | Some k => len pre + Z.of_nat k
              | None => -1
              end)).
    { intros st' He' Hi'.
      replace (pre ++ c :: r) with ((pre ++ [c]) ++ r) by now rewrite <- app_assoc.
      replace (len pre + 1) with (len (pre ++ [c])) by (rewrite len_app; reflexivity).
      rewrite IH by (first [assumption | lia]).
      destruct (closeOffset r (braceCount st') (inString st')); simpl; [|reflexivity].
      rewrite len_app. unfold len at 2. simpl length. f_equal. lia. }
    cbn [scanLoop closeOffset].
    assert (Hlt : (len pre <? len (pre ++ c :: r)) = true).
    { apply Z.ltb_lt. rewrite len_app. unfold len at 3. simpl length. lia. }
    rewrite Hlt, He, strict_eq_escLiteral, at_index_app.
    change lbrace with [123%N]. change rbrace with [125%N]. unfold dquote.
    rewrite !strict_eq_unit.
    destruct (N.eqb c 34).
    { rewrite Hstep by (cbn; auto). reflexivity. }
    destruct (inString st) eqn:Hs; cbn [negb].
    { rewrite Hstep by (cbn; auto). now rewrite Hs. }
    destruct (N.eqb c 123).
    { rewrite Hstep by (cbn; auto). reflexivity. }
    destruct (N.eqb c 125).
    { cbv zeta. destruct (braceCount st - 1 =? 0).
      - cbn. f_equal. lia.
      - rewrite Hstep by (cbn; auto). reflexivity. }
    rewrite Hstep by (cbn; auto). now rewrite Hs.
Qed.

Lemma scanLoop_init (pre l : jsstring) (fuel : nat) :
  (length l < fuel)%nat ->
  exists st, scanLoop fuel (pre ++ l) (len pre) initScan = Some st /\
             endIndex st = match closeOffset l 0 false with
                           | Some k => len pre + Z.of_nat k
                           | None => -1
                           end.
Proof.
  intros Hf.
  pose proof (scanLoop_closeOffset l fuel pre initScan Hf eq_refl eq_refl) as H.
  destruct (scanLoop fuel (pre ++ l) (len pre) initScan) as [st|]; [|discriminate].
  exists st. split; [reflexivity|]. now injection H.
Qed.

End Loop.

(** ** Searching for a one-unit needle *)

Section Search.

Variable c : code_unit.

Lemma isPrefix_unit (s : jsstring) :
  isPrefix [c] s = match s with [] => false | y :: _ => N.eqb c y end.
Proof. destruct s as [|y r]; cbn; [reflexivity|]. now rewrite andb_true_r. Qed.

Lemma indexOf_from_notin (s : jsstring) :
  forall i, ~ In c s -> indexOf_from [c] s i = -1.
Proof.
  induction s as [|y r IH]; intros i Hn; cbn [indexOf_from]; rewrite isPrefix_unit.
  - reflexivity.
  - destruct (N.eqb_spec c y) as [->|Hne].
    + exfalso. apply Hn. now left.
    + apply IH. intros Hin. apply Hn. now right.
Qed.

Lemma indexOf_from_split (pre post : jsstring) :
  forall i, ~ In c pre -> indexOf_from [c] (pre ++ c :: post) i = i + len pre.
Proof.
  induction pre as [|y r IH]; intros i Hn; cbn [indexOf_from app]; rewrite isPrefix_unit.
  - rewrite N.eqb_refl. unfold len. simpl. lia.
  - destruct (N.eqb_spec c y) as [->|Hne].
    + exfalso. apply Hn. now left.
    + rewrite IH by (intros Hin; apply Hn; now right).
      unfold len. simpl length. lia.
Qed.

Lemma lastIndexOf_from_notin (s : jsstring) :
  forall i best, ~ In c s -> lastIndexOf_from [c] s i best = best.
Proof.
  induction s as [|y r IH]; intros i best Hn; cbn [lastIndexOf_from]; rewrite isPrefix_unit.
  - reflexivity.
  - destruct (N.eqb_spec c y) as [->|Hne].
    + exfalso. apply Hn. now left.
    + apply IH. intros Hin. apply Hn. now right.
Qed.

Lemma lastIndexOf_from_split (pre post : jsstring) :
  forall i best, ~ In c post ->
    lastIndexOf_from [c] (pre ++ c :: post) i best = i + len pre.
Proof.
  induction pre as [|y r IH]; intros i best Hn; cbn [lastIndexOf_from app];
    rewrite isPrefix_unit.
  - rewrite N.eqb_refl, lastIndexOf_from_notin by assumption.
    unfold len. simpl. lia.
  - rewrite IH by assumption. unfold len. simpl length. lia.
Qed.

Lemma split_first (s : jsstring) :
  In c s -> exists pre post, s = pre ++ c :: post /\ ~ In c pre.
Proof.
  induction s as [|y r IH]; intros Hin; [destruct Hin|].
  destruct (N.eq_dec y c) as [->|Hne].
  - exists [], r. split; [reflexivity|intros []].
  - destruct Hin as [Heq|Hin]; [contradiction|].
    destruct (IH Hin) as (pre & post & -> & Hn).
    exists (y :: pre), post. split; [reflexivity|].
    intros [Heq|H']; [contradiction|now apply Hn].
Qed.

Lemma split_last (s : jsstring) :
  In c s -> exists pre post, s = pre ++ c :: post /\ ~ In c post.
Proof.
  intros Hin. apply in_rev in Hin.
  destruct (split_first (rev s) Hin) as (pre & post & Hs & Hn).
  exists (rev post), (rev pre). split.
  - rewrite <- (rev_involutive s), Hs, rev_app_distr. cbn [rev].
    now rewrite <- app_assoc.
  - intros H'. apply Hn. now apply in_rev.
Qed.

Lemma indexOf_notin (s : jsstring) : ~ In c s -> indexOf s [c] = -1.
Proof. apply indexOf_from_notin. Qed.

Lemma indexOf_split (pre post : jsstring) :
  ~ In c pre -> indexOf (pre ++ c :: post) [c] = len pre.
Proof. intros Hn. unfold indexOf. now rewrite indexOf_from_split. Qed.

Lemma lastIndexOf_notin (s : jsstring) : ~ In c s -> lastIndexOf s [c] = -1.
Proof. apply lastIndexOf_from_notin. Qed.

Lemma lastIndexOf_split (pre post : jsstring) :
  ~ In c post -> lastIndexOf (pre ++ c :: post) [c] = len pre.
Proof. intros Hn. unfold lastIndexOf. now rewrite lastIndexOf_from_split. Qed.

Lemma indexOf_in (s : jsstring) : indexOf s [c] <> -1 -> In c s.
Proof.
  intros H. destruct (in_dec N.eq_dec c s) as [Hin|Hn]; [assumption|].
  now rewrite indexOf_notin in H.
Qed.

Lemma lastIndexOf_in (s : jsstring) : lastIndexOf s [c] <> -1 -> In c s.
Proof.
  intros H. destruct (in_dec N.eq_dec c s) as [Hin|Hn]; [assumption|].
  now rewrite lastIndexOf_notin in H.
Qed.

End Search.

(** ** Slices *)

Section Slices.

Lemma skipn_len_app (pre l : jsstring) : skipn (Z.to_nat (len pre)) (pre ++ l) = l.
Proof.
  unfold len. rewrite Nat2Z.id, skipn_app, skipn_all, Nat.sub_diag. reflexivity.
Qed.

Lemma substring_mid (pre mid post : jsstring) :
  substring (pre ++ mid ++ post) (len pre) (len pre + len mid) = mid.
Proof.
  unfold substring, clamp.
  pose proof (len_nonneg pre). pose proof (len_nonneg mid). pose proof (len_nonneg post).
  rewrite !len_app.
  replace (Z.min (Z.max (len pre) 0) (len pre + (len mid + len post))) with (len pre) by lia.
  replace (Z.min (Z.max (len pre + len mid) 0) (len pre + (len mid + len post)))
    with (len pre + len mid) by lia.
  replace (Z.min (len pre) (len pre + len mid)) with (len pre) by lia.
  replace (Z.max (len pre) (len pre + len mid) - len pre) with (len mid) by lia.
  rewrite skipn_len_app. unfold len. rewrite Nat2Z.id, firstn_app, firstn_all, Nat.sub_diag.
  cbn. now rewrite app_nil_r.
Qed.

Lemma substring_swap (s : jsstring) (a b : Z) : substring s a b = substring s b a.
Proof. unfold substring. now rewrite Z.min_comm, Z.max_comm. Qed.

Lemma substring_slice (s : jsstring) (a b : Z) :
  exists pre post, s = pre ++ substring s a b ++ post.
Proof.
  unfold substring. cbv zeta.
  eexists (firstn _ s), (skipn _ (skipn _ s)).
  now rewrite (firstn_skipn _ (skipn _ s)), firstn_skipn.
Qed.

End Slices.

(** ** Trimming *)

Section Trim.

Lemma trimStart_length (s : jsstring) : (length (trimStart s) <= length s)%nat.
Proof.
  induction s as [|c r IH]; simpl; [lia|].
  destruct (isWhiteSpace c); simpl; lia.
Qed.

Lemma trimStart_decomp (s : jsstring) :
  exists l, s = l ++ trimStart s /\ forallb isWhiteSpace l = true.
Proof.
  induction s as [|c r (l & Hl & Hw)]; [now exists []|].
  simpl. destruct (isWhiteSpace c) eqn:Hc.
  - exists (c :: l). split; [simpl; now rewrite <- Hl|]. simpl. now rewrite Hc.
  - now exists [].
Qed.

Lemma trimStart_idem (s : jsstring) : trimStart (trimStart s) = trimStart s.
Proof.
  induction s as [|c r IH]; [reflexivity|].
  simpl. destruct (isWhiteSpace c) eqn:Hc; [assumption|]. simpl. now rewrite Hc.
Qed.

Lemma trimStart_fixed_head (c : code_unit) (r : jsstring) :
  trimStart (c :: r) = c :: r -> isWhiteSpace c = false.
Proof.
  simpl. destruct (isWhiteSpace c); [|reflexivity].
  intros H. pose proof (trimStart_length r) as Hl. rewrite H in Hl. simpl in Hl. lia.
Qed.

Lemma trimStart_head (c : code_unit) (r : jsstring) :
  isWhiteSpace c = false -> trimStart (c :: r) = c :: r.
Proof. intros H. simpl. now rewrite H. Qed.

Lemma trimEnd_decomp (s : jsstring) :
  exists r, s = trimEnd s ++ r /\ forallb isWhiteSpace r = true.
Proof.
  destruct (trimStart_decomp (rev s)) as (l & Hl & Hw).
  exists (rev l). split.
  - unfold trimEnd. rewrite <- rev_app_distr, <- Hl. now rewrite rev_involutive.
  - rewrite forallb_forall in *. intros x Hx. apply Hw. now apply in_rev.
Qed.

Lemma trim_decomp (s : jsstring) :
  exists l r, s = l ++ trim s ++ r /\
              forallb isWhiteSpace l = true /\ forallb isWhiteSpace r = true.
Proof.
  destruct (trimStart_decomp s) as (l & Hl & Hwl).
  destruct (trimEnd_decomp (trimStart s)) as (r & Hr & Hwr).
  exists l, r. unfold trim. now rewrite <- Hr, <- Hl.
Qed.

Lemma trim_length (s : jsstring) : (length (trim s) <= length s)%nat.
Proof.
  destruct (trim_decomp s) as (l & r & H & _).
  rewrite H at 2. rewrite !length_app. lia.
Qed.

Lemma trimmed_trim (s : jsstring) : trimmed s -> trim s = s.
Proof.
  intros [H1 H2]. unfold trim, trimEnd. now rewrite H1, H2, rev_involutive.
Qed.

Lemma trim_trimmed (s : jsstring) : trimmed (trim s).
Proof.
  unfold trimmed, trim. split.
  - destruct (trimEnd_decomp (trimStart s)) as (r & Hr & _).
    destruct (trimEnd (trimStart s)) as [|h x] eqn:He; [reflexivity|].
    apply trimStart_head.
    apply (trimStart_fixed_head h (x ++ r)).
    change (h :: x ++ r) with ((h :: x) ++ r). rewrite <- Hr.
    apply trimStart_idem.
  - unfold trimEnd. rewrite rev_involutive. apply trimStart_idem.
Qed.

Lemma trim_idem (s : jsstring) : trim (trim s) = trim s.
Proof. apply trimmed_trim, trim_trimmed. Qed.

Lemma trimmed_ends (h e : code_unit) (m : jsstring) :
  isWhiteSpace h = false -> isWhiteSpace e = false -> trimmed (h :: m ++ [e]).
Proof.
  intros Hh He. split; [now apply trimStart_head|].
  change (h :: m ++ [e]) with ((h :: m) ++ [e]).
  rewrite rev_app_distr. cbn [rev app]. now apply trimStart_head.
Qed.

Lemma trimmed_head (h : code_unit) (r : jsstring) :
  trimmed (h :: r) -> isWhiteSpace h = false.
Proof. intros [H _]. now apply trimStart_fixed_head in H. Qed.

Lemma trimmed_last (m : jsstring) (e : code_unit) :
  trimmed (m ++ [e]) -> isWhiteSpace e = false.
Proof.
  intros [_ H]. rewrite rev_app_distr in H. cbn [rev app] in H.
  now apply trimStart_fixed_head in H.
Qed.

Lemma trimStart_app (a : jsstring) (h : code_unit) (r : jsstring) :
  isWhiteSpace h = false -> trimStart (a ++ h :: r) = trimStart a ++ h :: r.
Proof.
  intros Hh. induction a as [|c a IH]; cbn [app trimStart].
  - now rewrite Hh.
  - destruct (isWhiteSpace c); [assumption|reflexivity].
Qed.

Lemma trimEnd_app (m : jsstring) (e : code_unit) (b : jsstring) :
  isWhiteSpace e = false -> trimEnd (m ++ e :: b) = m ++ e :: trimEnd b.
Proof.
  intros He. unfold trimEnd.
  rewrite rev_app_distr. cbn [rev]. rewrite <- app_assoc. cbn [app].
  rewrite trimStart_app by assumption.
  rewrite rev_app_distr. cbn [rev]. rewrite rev_involutive, <- app_assoc.
  reflexivity.
Qed.

Lemma in_trimStart (c : code_unit) (a : jsstring) : In c (trimStart a) -> In c a.
Proof.
  intros H. destruct (trimStart_decomp a) as (l & E & _).
  rewrite E. apply in_or_app. now right.
Qed.

End Trim.

(** ** Properties of the scan *)

Section Scan.

Lemma closeOffset_app (l m : jsstring) :
  forall d s k, closeOffset l d s = Some k -> closeOffset (l ++ m) d s = Some k.
Proof.
  induction l as [|c r IH]; intros d s k H; [discriminate|].
  cbn [closeOffset app] in *.
  repeat match goal with
  | |- context [if ?b then _ else _] => destruct b
  | H : option_map S (closeOffset r ?d' ?s') = Some _ |- _ =>
      destruct (closeOffset r d' s') eqn:E; [|discriminate];
      rewrite (IH _ _ _ E); exact H
  end; assumption.
Qed.

Lemma closeOffset_prefix_none (l m : jsstring) (d : Z) (s : bool) :
  closeOffset (l ++ m) d s = None -> closeOffset l d s = None.
Proof.
  intros H. destruct (closeOffset l d s) eqn:E; [|reflexivity].
  now rewrite (closeOffset_app _ m _ _ _ E) in H.
Qed.

(** A closing position holds a closing brace, and the scan of the text up to
    and including it closes at the same place. *)
Lemma closeOffset_split (l : jsstring) :
  forall d s k, closeOffset l d s = Some k ->
    exists body rest, l = body ++ 125%N :: rest /\ length body = k /\
                      closeOffset (body ++ [125%N]) d s = Some k.
Proof.
  induction l as [|c r IH]; intros d s k H; [discriminate|].
  cbn [closeOffset] in H.
  assert (Hrec : forall d' s', option_map S (closeOffset r d' s') = Some k ->
            closeOffset (c :: r) d s = option_map S (closeOffset r d' s') ->
            (forall x, closeOffset (c :: x) d s = option_map S (closeOffset x d' s')) ->
            exists body rest, c :: r = body ++ 125%N :: rest /\ length body = k /\
                              closeOffset (body ++ [125%N]) d s = Some k).
  { intros d' s' Hk _ Hx.
    destruct (closeOffset r d' s') as [j|] eqn:E; [|discriminate].
    injection Hk as <-.
    destruct (IH _ _ _ E) as (body & rest & -> & Hlen & Hc).
    exists (c :: body), rest. split; [reflexivity|]. split; [simpl; lia|].
    cbn [app]. rewrite Hx, Hc. reflexivity. }
  destruct (N.eqb c 34) eqn:Hq.
  { apply (Hrec _ _ H); cbn [closeOffset]; rewrite ?Hq; reflexivity || (intros; now rewrite Hq). }
  destruct s.
  { apply (Hrec _ _ H); cbn [closeOffset]; rewrite ?Hq; reflexivity || (intros; now rewrite Hq). }
  destruct (N.eqb c 123) eqn:Hl.
  { apply (Hrec _ _ H); cbn [closeOffset]; rewrite ?Hq, ?Hl;
      reflexivity || (intros; now rewrite Hq, Hl). }
  destruct (N.eqb_spec c 125) as [->|Hr].
  { destruct (d - 1 =? 0) eqn:Hd.
    - injection H as <-. exists [], r. split; [reflexivity|]. split; [reflexivity|].
      cbn. now rewrite Hd.
    - apply (Hrec _ _ H); cbn [closeOffset]; cbn; rewrite ?Hd;
        reflexivity || (intros; now rewrite Hd). }
  apply N.eqb_neq in Hr.
  apply (Hrec _ _ H); cbn [closeOffset]; rewrite ?Hq, ?Hl, ?Hr;
    reflexivity || (intros; now rewrite Hq, Hl, Hr).
Qed.

Lemma closeOffset_no_rbrace (l : jsstring) :
  forall d s, ~ In 125%N l -> closeOffset l d s = None.
Proof.
  induction l as [|c r IH]; intros d s Hn; [reflexivity|].
  assert (Hr : ~ In 125%N r) by (intros Hin; apply Hn; now right).
  cbn [closeOffset].
  destruct (N.eqb_spec c 125) as [->|_]; [exfalso; apply Hn; now left|].
  repeat match goal with
  | |- context [if ?b then _ else _] => destruct b
  end; now rewrite IH.
Qed.

End Scan.

(** ** The extractor in closed form *)

Ltac len_lia := cbn [length] in *; lia.

Section Extract.

Lemma lbrace_unit : lbrace = [123%N].
Proof. reflexivity. Qed.

Lemma rbrace_unit : rbrace = [125%N].
Proof. reflexivity. Qed.

Lemma not_in_trim (c : code_unit) (text : jsstring) :
  ~ In c text -> ~ In c (trim text).
Proof.
  intros Hn Hin. apply Hn.
  destruct (trim_decomp text) as (l & r & -> & _).
  apply in_or_app. right. apply in_or_app. now left.
Qed.

(** With a budget above the length of the text the loop always finishes, and
    the extractor returns [extractTrimmed] of the trimmed text. *)
Lemma extractJson_fuel_closed (fuel : nat) (text : jsstring) :
  (length text < fuel)%nat ->
  extractJson_fuel fuel text = Some (extractTrimmed (trim text)).
Proof.
  intros Hf. unfold extractJson_fuel, extractTrimmed. cbv zeta.
  pose proof (trim_length text) as Hlen.
  set (t := trim text) in *.
  destruct (in_dec N.eq_dec 123%N t) as [Hin|Hn].
  - destruct (split_first _ _ Hin) as (pre & post & Ht & Hpre).
    rewrite lbrace_unit, Ht, indexOf_split by assumption.
    pose proof (len_nonneg pre) as Hp.
    destruct (Z.eqb_spec (len pre) (-1)) as [E|_]; [lia|]. cbn [negb].
    rewrite skipn_len_app.
    assert (Hl : (length (123%N :: post) < fuel)%nat).
    { rewrite Ht, length_app in Hlen. len_lia. }
    destruct (scanLoop_init pre (123%N :: post) fuel Hl) as (st & Hs & Hend).
    rewrite Hs, Hend.
    destruct (closeOffset (123%N :: post) 0 false) as [k|].
    + destruct (Z.eqb_spec (len pre + Z.of_nat k) (-1)) as [E|_]; [lia|].
      reflexivity.
    + change (-1 =? -1) with true. cbn [negb].
      now destruct (lastIndexOf (pre ++ 123%N :: post) rbrace =? -1).
  - rewrite lbrace_unit, indexOf_notin by assumption. reflexivity.
Qed.

Lemma extractJson_closed (text : jsstring) :
  extractJson text = Some (extractTrimmed (trim text)).
Proof. apply extractJson_fuel_closed. lia. Qed.

Lemma extractTrimmed_no_lbrace (t : jsstring) :
  ~ In 123%N t -> extractTrimmed t = t.
Proof.
  intros Hn. unfold extractTrimmed.
  now rewrite lbrace_unit, indexOf_notin by assumption.
Qed.

Lemma extractTrimmed_split (pre post : jsstring) :
  ~ In 123%N pre ->
  extractTrimmed (pre ++ 123%N :: post) =
  match closeOffset (123%N :: post) 0 false with
  | Some k => substring (pre ++ 123%N :: post) (len pre) (len pre + Z.of_nat k + 1)
  | None =>
    if lastIndexOf (pre ++ 123%N :: post) rbrace =? -1 then pre ++ 123%N :: post
    else substring (pre ++ 123%N :: post) (len pre)
           (lastIndexOf (pre ++ 123%N :: post) rbrace + 1)
  end.
Proof.
  intros Hn. unfold extractTrimmed.
  rewrite lbrace_unit, indexOf_split by assumption.
  pose proof (len_nonneg pre).
  destruct (Z.eqb_spec (len pre) (-1)) as [E|_]; [lia|].
  now rewrite skipn_len_app.
Qed.

Lemma scanFails_split (text pre post : jsstring) :
  trim text = pre ++ 123%N :: post -> ~ In 123%N pre ->
  (scanFails text <-> closeOffset (123%N :: post) 0 false = None).
Proof.
  intros Ht Hpre. unfold scanFails.
  pose proof (trim_length text) as Hlen.
  rewrite lbrace_unit, Ht, indexOf_split by assumption.
  assert (Hl : (length (123%N :: post) < S (length text))%nat).
  { rewrite Ht, length_app in Hlen. len_lia. }
  destruct (scanLoop_init pre (123%N :: post) _ Hl) as (st & Hs & Hend).
  rewrite Hs. cbn [option_map]. rewrite Hend.
  pose proof (len_nonneg pre).
  destruct (closeOffset (123%N :: post) 0 false) as [k|].
  - split; [intros [_ E]; injection E; lia|discriminate].
  - split; [reflexivity|]. intros _. split; [lia|reflexivity].
Qed.

Lemma scanFails_lbrace (text : jsstring) : scanFails text -> In 123%N (trim text).
Proof. intros [H _]. rewrite lbrace_unit in H. now apply indexOf_in. Qed.

Lemma extractTrimmed_slice (t : jsstring) :
  exists pre post, t = pre ++ extractTrimmed t ++ post.
Proof.
  assert (Hself : exists pre post, t = pre ++ t ++ post).
  { exists [], []. now rewrite app_nil_r. }
  unfold extractTrimmed. cbv zeta.
  destruct (indexOf t lbrace =? -1); [assumption|].
  destruct (closeOffset _ 0 false); [apply substring_slice|].
  destruct (lastIndexOf t rbrace =? -1); [assumption|apply substring_slice].
Qed.

(** The three ways in which [extractTrimmed] cuts a slice out of a text that
    holds an opening brace. *)

Lemma substring_whole (y : jsstring) : substring y 0 (len y) = y.
Proof.
  pose proof (substring_mid [] y []) as H.
  cbn [app] in H. rewrite app_nil_r in H. exact H.
Qed.

Lemma len_snoc (m : jsstring) (e : N) : len (m ++ [e]) = len m + 1.
Proof. rewrite len_app. reflexivity. Qed.

Lemma extractTrimmed_closed (pre body rest : jsstring) :
  ~ In 123%N pre ->
  closeOffset (123%N :: body ++ 125%N :: rest) 0 false = Some (S (length body)) ->
  extractTrimmed (pre ++ 123%N :: body ++ 125%N :: rest) = 123%N :: body ++ [125%N].
Proof.
  intros Hpre Hc.
  rewrite extractTrimmed_split, Hc by assumption.
  replace (pre ++ 123%N :: body ++ 125%N :: rest)
    with (pre ++ (123%N :: body ++ [125%N]) ++ rest)
    by (cbn [app]; rewrite <- app_assoc; reflexivity).
  replace (len pre + Z.of_nat (S (length body)) + 1)
    with (len pre + len (123%N :: body ++ [125%N])).
  - apply substring_mid.
  - unfold len. cbn [length]. rewrite length_app. cbn [length]. lia.
Qed.

Lemma extractTrimmed_last (pre mid post : jsstring) :
  ~ In 123%N pre -> ~ In 125%N post ->
  closeOffset (123%N :: mid ++ 125%N :: post) 0 false = None ->
  extractTrimmed (pre ++ 123%N :: mid ++ 125%N :: post) = 123%N :: mid ++ [125%N].
Proof.
  intros Hpre Hpost Hc.
  rewrite extractTrimmed_split, Hc by assumption.
  assert (Hlast : lastIndexOf (pre ++ 123%N :: mid ++ 125%N :: post) rbrace
                  = len pre + len (123%N :: mid)).
  { replace (pre ++ 123%N :: mid ++ 125%N :: post)
      with ((pre ++ 123%N :: mid) ++ 125%N :: post)
      by (rewrite <- app_assoc; reflexivity).
    rewrite rbrace_unit, lastIndexOf_split by assumption. apply len_app. }
  rewrite Hlast.
  pose proof (len_nonneg pre). pose proof (len_nonneg (123%N :: mid)).
  destruct (Z.eqb_spec (len pre + len (123%N :: mid)) (-1)) as [E|_]; [lia|].
  replace (pre ++ 123%N :: mid ++ 125%N :: post)
    with (pre ++ (123%N :: mid ++ [125%N]) ++ post)
    by (cbn [app]; rewrite <- app_assoc; reflexivity).
  replace (len pre + len (123%N :: mid) + 1)
    with (len pre + len (123%N :: mid ++ [125%N])).
  - apply substring_mid.
  - unfold len. cbn [length]. rewrite length_app. cbn [length]. lia.
Qed.

Lemma extractTrimmed_between (pre mid post : jsstring) :
  ~ In 123%N (pre ++ 125%N :: mid) -> ~ In 125%N (mid ++ 123%N :: post) ->
  extractTrimmed (pre ++ 125%N :: mid ++ 123%N :: post) = mid.
Proof.
  intros Hpre Hpost.
  assert (Hnone : closeOffset (123%N :: post) 0 false = None).
  { apply closeOffset_no_rbrace. intros H. apply Hpost, in_or_app. now right. }
  replace (pre ++ 125%N :: mid ++ 123%N :: post)
    with ((pre ++ 125%N :: mid) ++ 123%N :: post)
    by (rewrite <- app_assoc; reflexivity).
  rewrite extractTrimmed_split, Hnone by assumption.
  replace ((pre ++ 125%N :: mid) ++ 123%N :: post)
    with (pre ++ 125%N :: mid ++ 123%N :: post)
    by (rewrite <- app_assoc; reflexivity).
  rewrite rbrace_unit, lastIndexOf_split by assumption.
  pose proof (len_nonneg pre).
  destruct (Z.eqb_spec (len pre) (-1)) as [E|_]; [lia|].
  rewrite substring_swap.
  replace (pre ++ 125%N :: mid ++ 123%N :: post)
    with ((pre ++ [125%N]) ++ mid ++ 123%N :: post)
    by (rewrite <- app_assoc; reflexivity).
  rewrite <- (len_snoc pre 125%N).
  replace (len (pre ++ 125%N :: mid)) with (len (pre ++ [125%N]) + len mid).
  - apply substring_mid.
  - rewrite !len_app. unfold len. cbn [length]. lia.
Qed.

(** Two splits of one text around different code units: the shorter prefix
    is followed by the rest of the longer one. *)
Lemma two_splits (a b : N) (p1 q1 p2 q2 : jsstring) :
  a <> b -> p1 ++ a :: q1 = p2 ++ b :: q2 ->
  (exists m, p2 = p1 ++ a :: m /\ q1 = m ++ b :: q2) \/
  (exists m, p1 = p2 ++ b :: m /\ q2 = m ++ a :: q1).
Proof.
  intros Hab H. apply app_eq_app in H. destruct H as (m & [[E1 E2]|[E1 E2]]).
  - right. destruct m as [|x m]; cbn [app] in E2.
    + injection E2 as E _. congruence.
    + injection E2 as <- E2. now exists m.
  - left. destruct m as [|x m]; cbn [app] in E2.
    + injection E2 as E _. congruence.
    + injection E2 as <- E2. now exists m.
Qed.

End Extract.

(** ** Claims *)

(** C8. Totality: for every input, the empty string included, the loop ends
    within its budget and [extractJson] returns a string; a larger budget
    gives the same string. *)
Theorem extractJson_total (text : jsstring) (k : nat) :
  exists r, extractJson text = Some r /\
            extractJson_fuel (S (length text) + k) text = Some r.
Proof.
  exists (extractTrimmed (trim text)). split.
  - apply extractJson_closed.
  - apply extractJson_fuel_closed. lia.
Qed.

(** C9. For every input the value returned by [extractJson] is a contiguous
    substring of the trimmed input. *)
Theorem extractJson_slice_of_trimmed (text : jsstring) :
  exists r pre post, extractJson text = Some r /\ trim text = pre ++ r ++ post.
Proof.
  destruct (extractTrimmed_slice (trim text)) as (pre & post & H).
  exists (extractTrimmed (trim text)), pre, post.
  split; [apply extractJson_closed|exact H].
Qed.

(** C6. For an input with no opening brace, [extractJson] returns the trimmed
    input: the input with a run of white space removed at each end, nothing
    else changed, and no white space left as first or last character. *)
Theorem extractJson_no_lbrace (text : jsstring) :
  ~ In 123%N text ->
  extractJson text = Some (trim text) /\
  (exists l r, text = l ++ trim text ++ r /\
               forallb isWhiteSpace l = true /\ forallb isWhiteSpace r = true) /\
  (forall c r, trim text = c :: r -> isWhiteSpace c = false) /\
  (forall m c, trim text = m ++ [c] -> isWhiteSpace c = false).
Proof.
  intros Hn. split; [|split; [|split]].
  - rewrite extractJson_closed, extractTrimmed_no_lbrace; [reflexivity|].
    now apply not_in_trim.
  - apply trim_decomp.
  - intros c r E. apply (trimmed_head c r). rewrite <- E. apply trim_trimmed.
  - intros m c E. apply (trimmed_last m c). rewrite <- E. apply trim_trimmed.
Qed.

Lemma extractJson_no_lbrace_witness :
  ~ In 123%N noBraceText /\
  extractJson noBraceText = Some (lit "no json here").
Proof.
  assert (H : ~ In 123%N noBraceText).
  { vm_compute. intros H. repeat (destruct H as [H|H]; [discriminate H|]). exact H. }
  split; [exact H|].
  destruct (extractJson_no_lbrace noBraceText H) as (E & _).
  rewrite E. vm_compute. reflexivity.
Defined.

(** C4, for a last closing brace that lies after the first opening brace.
    When the scan from the first opening brace reaches the end of the trimmed
    text without closing, [extractJson] returns the text from that opening
    brace through that closing brace, both included. *)
Theorem extractJson_fallback_last_brace (text pre mid post : jsstring) :
  trim text = pre ++ [123%N] ++ mid ++ [125%N] ++ post ->
  ~ In 123%N pre -> ~ In 125%N post ->
  scanFails text ->
  extractJson text = Some ([123%N] ++ mid ++ [125%N]).
Proof.
  intros Ht Hpre Hpost Hfail. cbn [app] in *.
  apply (scanFails_split _ _ _ Ht Hpre) in Hfail.
  now rewrite extractJson_closed, Ht, extractTrimmed_last.
Qed.

Lemma extractJson_fallback_last_brace_witness :
  extractJson openInString = Some (lit "{" ++ q ++ lit "a}").
Proof.
  apply (extractJson_fallback_last_brace openInString (lit "x ") (q ++ lit "a") []).
  - vm_compute. reflexivity.
  - vm_compute. intros H. repeat (destruct H as [H|H]; [discriminate H|]). exact H.
  - intros H. exact H.
  - vm_compute. split; [discriminate|reflexivity].
Defined.

(** C4 as stated fails: on [closeBeforeOpen] the scan does not close and a
    closing brace occurs in the text, yet the returned string is the single
    letter between the two braces, not a span from the first opening brace
    through the last closing brace. *)
Lemma fallback_last_brace_counterexample :
  scanFails closeBeforeOpen /\ In 125%N (trim closeBeforeOpen) /\
  extractJson closeBeforeOpen = Some (lit "a") /\
  ~ spansFirstToLast (trim closeBeforeOpen) (lit "a").
Proof.
  split; [vm_compute; split; [discriminate|reflexivity]|].
  split; [vm_compute; now left|].
  split; [vm_compute; reflexivity|].
  intros (pre & mid & post & _ & Hr & _). discriminate Hr.
Qed.

(** C5, with the result the code gives.  When the scan from the first
    opening brace reaches the end of the trimmed text without closing and the
    trimmed text holds no closing brace, [extractJson] returns the whole
    trimmed text, prose before the first opening brace included. *)
Theorem extractJson_no_rbrace (text : jsstring) :
  scanFails text -> ~ In 125%N (trim text) ->
  extractJson text = Some (trim text).
Proof.
  intros Hfail Hn.
  destruct (split_first _ _ (scanFails_lbrace _ Hfail)) as (pre & post & Ht & Hpre).
  apply (scanFails_split _ _ _ Ht Hpre) in Hfail.
  rewrite extractJson_closed, Ht, extractTrimmed_split, Hfail by assumption.
  rewrite <- Ht, rbrace_unit, lastIndexOf_notin by assumption.
  reflexivity.
Qed.

Lemma extractJson_no_rbrace_witness :
  extractJson proseThenOpen = Some proseThenOpen.
Proof.
  apply (extractJson_no_rbrace proseThenOpen).
  - vm_compute. split; [discriminate|reflexivity].
  - vm_compute. intros H. repeat (destruct H as [H|H]; [discriminate H|]). exact H.
Defined.

(** C5 as stated fails: on [proseThenOpen] the scan does not close and there
    is no closing brace, and the returned string starts with the letter that
    precedes the opening brace, so it is not the text from the first opening
    brace to the end. *)
Lemma no_rbrace_counterexample :
  scanFails proseThenOpen /\ ~ In 125%N (trim proseThenOpen) /\
  extractJson proseThenOpen = Some (lit "a{") /\
  ~ fromFirstBrace (trim proseThenOpen) (lit "a{").
Proof.
  split; [vm_compute; split; [discriminate|reflexivity]|].
  split.
  { vm_compute. intros H. repeat (destruct H as [H|H]; [discriminate H|]). exact H. }
  split; [vm_compute; reflexivity|].
  intros (pre & rest & _ & Hr & _). discriminate Hr.
Qed.

(** C10. When the scan does not close and the last closing brace of the
    trimmed text lies strictly before its first opening brace, [extractJson]
    returns the characters strictly between the two (the arguments of
    [substring] are swapped), a string with no opening and no closing
    brace. *)
Theorem extractJson_close_before_open (text : jsstring) :
  scanFails text ->
  0 <= lastIndexOf (trim text) rbrace < indexOf (trim text) lbrace ->
  exists pre mid post,
    trim text = pre ++ [125%N] ++ mid ++ [123%N] ++ post /\
    len pre = lastIndexOf (trim text) rbrace /\
    len pre + 1 + len mid = indexOf (trim text) lbrace /\
    extractJson text = Some mid /\
    ~ In 123%N mid /\ ~ In 125%N mid.
Proof.
  intros Hfail [Hlb Hlt].
  rewrite lbrace_unit, rbrace_unit in *.
  destruct (split_first _ _ (scanFails_lbrace _ Hfail)) as (p1 & q1 & Ht1 & Hp1).
  assert (Hin : In 125%N (trim text)) by (apply lastIndexOf_in; lia).
  destruct (split_last _ _ Hin) as (p2 & q2 & Ht2 & Hq2).
  rewrite Ht1 in Hlt at 2. rewrite indexOf_split in Hlt by assumption.
  rewrite Ht2 in Hlt at 1. rewrite lastIndexOf_split in Hlt by assumption.
  assert (Heq : p1 ++ 123%N :: q1 = p2 ++ 125%N :: q2) by now rewrite <- Ht1, <- Ht2.
  apply two_splits in Heq; [|discriminate].
  destruct Heq as [(m & E1 & E2)|(mid & E1 & E2)].
  { rewrite E1, len_app in Hlt. pose proof (len_nonneg (123%N :: m)). lia. }
  exists p2, mid, q1. subst p1 q2.
  assert (Ht : trim text = p2 ++ [125%N] ++ mid ++ [123%N] ++ q1).
  { rewrite Ht1. cbn [app]. rewrite <- app_assoc. reflexivity. }
  split; [exact Ht|].
  split; [rewrite Ht2; now rewrite lastIndexOf_split|].
  split.
  { rewrite Ht1, indexOf_split by assumption.
    rewrite len_app. unfold len. cbn [length]. lia. }
  split.
  { rewrite extractJson_closed, Ht. cbn [app].
    now rewrite extractTrimmed_between. }
  split.
  - intros H. apply Hp1, in_or_app. right. now right.
  - intros H. apply Hq2, in_or_app. now left.
Qed.

Lemma extractJson_close_before_open_witness :
  exists pre mid post,
    trim closeBeforeOpen = pre ++ [125%N] ++ mid ++ [123%N] ++ post /\
    len pre = lastIndexOf (trim closeBeforeOpen) rbrace /\
    len pre + 1 + len mid = indexOf (trim closeBeforeOpen) lbrace /\
    extractJson closeBeforeOpen = Some mid /\
    ~ In 123%N mid /\ ~ In 125%N mid.
Proof.
  apply (extractJson_close_before_open closeBeforeOpen).
  - vm_compute. split; [discriminate|reflexivity].
  - vm_compute. split; [discriminate|reflexivity].
Defined.

(** The extractor applied to a trimmed text either returns a fixed point of
    itself with no white space at its ends, or returns a brace-free string
    (the text between a closing brace and a later opening brace). *)
Lemma extractTrimmed_fixed_or_between (t : jsstring) :
  trimmed t ->
  (extractTrimmed (extractTrimmed t) = extractTrimmed t /\
   trimmed (extractTrimmed t)) \/
  (~ In 123%N (extractTrimmed t) /\ ~ In 125%N (extractTrimmed t)).
Proof.
  intros Htr.
  assert (Hends : forall m, trimmed (123%N :: m ++ [125%N]))
    by (intros m; apply trimmed_ends; reflexivity).
  destruct (in_dec N.eq_dec 123%N t) as [Hin|Hn].
  2:{ left. rewrite !(extractTrimmed_no_lbrace t) by assumption. now split. }
  destruct (split_first _ _ Hin) as (pre & post & Ht & Hpre).
  destruct (closeOffset (123%N :: post) 0 false) as [k|] eqn:Hc.
  - (* the scan closes *)
    destruct (closeOffset_split _ _ _ _ Hc) as (body & rest & Hl & Hk & Hb).
    destruct body as [|b body]; [discriminate Hl|].
    cbn [app] in Hl, Hb. injection Hl as <- Hl. subst post k.
    cbn [length] in Hc, Hb.
    left. rewrite Ht, extractTrimmed_closed by assumption.
    split; [|apply Hends].
    pose proof (extractTrimmed_closed [] body [] (fun H => H)) as Hfix.
    cbn [app] in Hfix. apply Hfix. exact Hb.
  - destruct (in_dec N.eq_dec 125%N t) as [Hin2|Hn2].
    + destruct (split_last _ _ Hin2) as (p2 & q2 & Ht2 & Hq2).
      assert (Heq : pre ++ 123%N :: post = p2 ++ 125%N :: q2)
        by now rewrite <- Ht, <- Ht2.
      apply two_splits in Heq; [|discriminate].
      destruct Heq as [(m & E1 & E2)|(m & E1 & E2)].
      * (* the last closing brace follows the first opening brace *)
        subst p2 post. left.
        rewrite Ht, extractTrimmed_last by assumption.
        split; [|apply Hends].
        pose proof (extractTrimmed_last [] m [] (fun H => H) (fun H => H)) as Hfix.
        cbn [app] in Hfix. apply Hfix.
        apply (closeOffset_prefix_none _ q2).
        cbn [app]. rewrite <- app_assoc. exact Hc.
      * (* the last closing brace precedes the first opening brace *)
        subst pre q2. right.
        replace t with (p2 ++ 125%N :: m ++ 123%N :: post)
          by (rewrite Ht, <- app_assoc; reflexivity).
        rewrite extractTrimmed_between by assumption.
        split; intros H.
        -- apply Hpre, in_or_app. right. now right.
        -- apply Hq2, in_or_app. now left.
    + (* no closing brace at all *)
      left.
      assert (E : extractTrimmed t = t).
      { rewrite Ht, extractTrimmed_split, Hc by assumption.
        now rewrite <- Ht, rbrace_unit, lastIndexOf_notin. }
      rewrite !E. now split.
Qed.

Lemma balanced_rbrace (y : jsstring) : balanced y -> In 125%N y.
Proof. intros (body & -> & _). apply in_or_app. right. now left. Qed.

Lemma trackIntended_cons (c : code_unit) (body : jsstring) (d : Z) (s e : bool) :
  trackIntended (c :: body) d s e
  = let '(d', s', e') := trackIntended [c] d s e in trackIntended body d' s' e'.
Proof.
  cbn [trackIntended].
  repeat match goal with
  | |- context [if ?b then _ else _] => destruct b
  end; reflexivity.
Qed.

(** An object that the scan of the specification closes at its final
    character is balanced. *)
Lemma closeOffsetIntended_track (l : jsstring) :
  forall d s e k, closeOffsetIntended l d s e = Some k ->
    exists body rest, l = body ++ 125%N :: rest /\ length body = k /\
                      trackIntended body d s e = (1, false, false).
Proof.
  induction l as [|c r IH]; intros d s e k H; [discriminate H|].
  cbn [closeOffsetIntended] in H.
  assert (Hrec : forall d' s' e',
            option_map S (closeOffsetIntended r d' s' e') = Some k ->
            trackIntended [c] d s e = (d', s', e') ->
            exists body rest, c :: r = body ++ 125%N :: rest /\ length body = k /\
                              trackIntended body d s e = (1, false, false)).
  { intros d' s' e' Hk Hc.
    destruct (closeOffsetIntended r d' s' e') as [j|] eqn:E; [|discriminate Hk].
    injection Hk as <-.
    destruct (IH _ _ _ _ E) as (body & rest & -> & Hlen & Ht).
    exists (c :: body), rest. split; [reflexivity|]. split; [cbn; lia|].
    now rewrite trackIntended_cons, Hc. }
  destruct e.
  { apply (Hrec _ _ _ H). reflexivity. }
  destruct (N.eqb c 92) eqn:Hb.
  { apply (Hrec _ _ _ H). cbn [trackIntended]. now rewrite Hb. }
  destruct (N.eqb c 34) eqn:Hq.
  { apply (Hrec _ _ _ H). cbn [trackIntended]. now rewrite Hb, Hq. }
  destruct s.
  { apply (Hrec _ _ _ H). cbn [trackIntended]. now rewrite Hb, Hq. }
  destruct (N.eqb c 123) eqn:Hl.
  { apply (Hrec _ _ _ H). cbn [trackIntended]. now rewrite Hb, Hq, Hl. }
  destruct (N.eqb_spec c 125) as [->|Hr].
  { destruct (Z.eqb_spec (d - 1) 0) as [Hd|Hd].
    - injection H as <-. exists [], r. split; [reflexivity|]. split; [reflexivity|].
      cbn. f_equal. f_equal. lia.
    - apply (Hrec _ _ _ H). reflexivity. }
  apply N.eqb_neq in Hr.
  apply (Hrec _ _ _ H). cbn [trackIntended]. now rewrite Hb, Hq, Hl, Hr.
Qed.

Lemma balanced_of_closing_scan (y : jsstring) (k : nat) :
  readIntended y 0 = Some k -> S k = length y -> balanced y.
Proof.
  intros Hc Hk.
  destruct (closeOffsetIntended_track _ _ _ _ _ Hc) as (body & rest & -> & Hlen & Ht).
  rewrite length_app in Hk. cbn [length] in Hk.
  destruct rest; [|cbn [length] in Hk; lia].
  now exists body.
Qed.

(** A result that holds a brace is returned unchanged by a second
    application. *)
Lemma extractJson_fixed_of_brace (x y : jsstring) :
  extractJson x = Some y -> In 123%N y \/ In 125%N y -> extractJson y = Some y.
Proof.
  intros Hx Hb. rewrite extractJson_closed in Hx. injection Hx as <-.
  destruct (extractTrimmed_fixed_or_between (trim x) (trim_trimmed x))
    as [[Hfix Htr]|[Hno1 Hno2]].
  - rewrite extractJson_closed, (trimmed_trim _ Htr). now f_equal.
  - destruct Hb as [Hb|Hb]; [destruct (Hno1 Hb)|destruct (Hno2 Hb)].
Qed.

Example balanced_oddEscaped : balanced oddEscaped.
Proof.
  exists (lit "{" ++ q ++ lit "a" ++ q ++ lit ":" ++ q ++ lit "say " ++ bs ++ q
              ++ lit "hi" ++ q).
  split; vm_compute; reflexivity.
Qed.

(** The prefix the source loop cuts out of [objEscClose] ends inside a
    string and is not balanced. *)
Example not_balanced_objEscCloseCut : ~ balanced objEscCloseCut.
Proof.
  intros (body & E & H).
  change objEscCloseCut
    with ((lit "{" ++ q ++ lit "a" ++ q ++ lit ":" ++ q ++ bs ++ q) ++ [125%N]) in E.
  apply app_inj_tail in E as [<- _]. vm_compute in H. discriminate H.
Qed.

(** C7. Idempotence: when [extractJson x] is a balanced object (its brace
    nesting, tracked outside of string literals, returns to zero net depth
    by its final character), applying [extractJson] to it returns it
    unchanged. *)
Theorem extractJson_idempotent (x y : jsstring) :
  extractJson x = Some y -> balanced y -> extractJson y = Some y.
Proof.
  intros Hx Hb. apply (extractJson_fixed_of_brace x); [assumption|].
  right. now apply balanced_rbrace.
Qed.

Lemma extractJson_idempotent_witness :
  extractJson oddEscaped = Some oddEscaped.
Proof.
  apply (extractJson_idempotent (proseBefore ++ oddEscaped ++ proseAfter)).
  - vm_compute. reflexivity.
  - exists (lit "{" ++ q ++ lit "a" ++ q ++ lit ":" ++ q ++ lit "say " ++ bs ++ q
                ++ lit "hi" ++ q).
    split; vm_compute; reflexivity.
Defined.

Section FailingInputs.

Lemma str_key (k : jsstring) :
  forallb Json.isUnescaped k = true -> Json.str (34%N :: k ++ [34%N]).
Proof.
  intros H. constructor. induction k as [|c r IH]; [constructor|].
  cbn [forallb] in H. apply andb_prop in H as [Hc Hr].
  constructor; [assumption|now apply IH].
Qed.

Lemma objEscClose_object : Json.object objEscClose.
Proof.
  apply (Json.object_members
           (q ++ lit "a" ++ q ++ lit ":" ++ q ++ bs ++ q ++ lit "}" ++ q)).
  apply Json.members_one.
  apply (Json.member_pair [] (34%N :: lit "a" ++ [34%N]) [] []
           (34%N :: [92%N; 34%N; 125%N] ++ [34%N]) []); try reflexivity.
  - now apply str_key.
  - apply Json.value_str. constructor.
    apply Json.chars_escape; [reflexivity|].
    apply Json.chars_plain; [reflexivity|constructor].
Qed.

Lemma objEscTwo_object : Json.object objEscTwo.
Proof.
  apply (Json.object_members
           ((q ++ lit "a" ++ q ++ lit ":" ++ q ++ bs ++ q ++ q) ++ 44%N ::
            (q ++ lit "b" ++ q ++ lit ":" ++ q ++ lit "}" ++ q))).
  apply Json.members_more; [|apply Json.members_one].
  - apply (Json.member_pair [] (34%N :: lit "a" ++ [34%N]) [] []
             (34%N :: [92%N; 34%N] ++ [34%N]) []); try reflexivity.
    + now apply str_key.
    + apply Json.value_str. constructor.
      apply Json.chars_escape; [reflexivity|constructor].
  - apply (Json.member_pair [] (34%N :: lit "b" ++ [34%N]) [] []
             (34%N :: lit "}" ++ [34%N]) []); try reflexivity.
    + now apply str_key.
    + apply Json.value_str. now apply str_key.
Qed.

End FailingInputs.

(** C1, evaluated on the code.  The test of [char] against the backslash
    literal is false at every index of every string.  [objEscClose] is a
    well-formed object whose string value holds an escaped quote followed by
    a closing brace.  The loop leaves the string at the escaped quote (the
    in-string flag is set after the backslash and cleared after the quote
    that follows it), counts the brace in the string and stops there: the
    result is a proper prefix of the object. *)
Theorem escaped_quote_toggles_inString :
  (forall s i, strict_eq (at_index s i) escLiteral = false) /\
  Json.object objEscClose /\ Json.backslashQuote objEscClose = true /\
  option_map inString (scanLoop 4 (lit "{" ++ q ++ bs) 0 initScan) = Some true /\
  option_map inString (scanLoop 5 (lit "{" ++ q ++ bs ++ q) 0 initScan) = Some false /\
  extractJson objEscClose = Some objEscCloseCut /\
  objEscCloseCut <> objEscClose.
Proof.
  split; [exact strict_eq_escLiteral|].
  split; [apply objEscClose_object|].
  repeat split; try (vm_compute; reflexivity).
  vm_compute. discriminate.
Qed.

(** C2, evaluated on the code.  In the well-formed object [objEscTwo] the
    second string value is a closing brace.  After the escaped quote of the
    first value the loop takes strings for structure, so this brace lowers
    the counter to zero and the object is cut two characters short. *)
Theorem brace_in_string_counted :
  Json.object objEscTwo /\
  In 125%N (lit "}") /\ Json.str (q ++ lit "}" ++ q) /\
  extractJson objEscTwo = Some objEscTwoCut /\
  objEscTwoCut <> objEscTwo.
Proof.
  split; [apply objEscTwo_object|].
  split; [now left|].
  split; [now apply (str_key (lit "}"))|].
  split; [vm_compute; reflexivity|].
  vm_compute. discriminate.
Qed.

(** C3, evaluated on the code.  The well-formed object [objEscClose] is not
    returned, neither alone nor between prose without braces. *)
Theorem object_in_prose_cut :
  Json.object objEscClose /\
  ~ In 123%N (proseBefore ++ proseAfter) /\ ~ In 125%N (proseBefore ++ proseAfter) /\
  extractJson (proseBefore ++ objEscClose ++ proseAfter) = Some objEscCloseCut /\
  extractJson objEscClose = Some objEscCloseCut /\
  objEscCloseCut <> objEscClose.
Proof.
  split; [apply objEscClose_object|].
  split.
  { vm_compute. intros H. repeat (destruct H as [H|H]; [discriminate H|]). exact H. }
  split.
  { vm_compute. intros H. repeat (destruct H as [H|H]; [discriminate H|]). exact H. }
  split; [vm_compute; reflexivity|].
  split; [vm_compute; reflexivity|].
  vm_compute. discriminate.
Qed.


(** ** Readers and the grammar

    A reader that steps over plain characters, counts braces and passes
    every well-formed string passes every well-formed value, and closes an
    object at its final brace.  The source loop is such a reader on texts
    without an escaped quote; the reader of the specification is one on all
    texts. *)

Section Shift.

Lemma shift_shift (n m : nat) (o : option nat) :
  shift n (shift m o) = shift (n + m) o.
Proof. destruct o; cbn; [f_equal; lia|reflexivity]. Qed.

Lemma shift_S (o : option nat) : option_map S o = shift 1 o.
Proof. now destruct o. Qed.

Lemma shift_0 (o : option nat) : shift 0 o = o.
Proof. now destruct o. Qed.

End Shift.

Section PlainCharacters.

Import Json.

Lemma forallb_weaken (f g : code_unit -> bool) (l : jsstring) :
  (forall c, f c = true -> g c = true) -> forallb f l = true -> forallb g l = true.
Proof. intros Hfg. rewrite !forallb_forall. auto. Qed.

Lemma isWs_plain (c : code_unit) : isWs c = true -> isPlain c = true.
Proof.
  unfold isWs, isPlain. intros H.
  repeat (apply orb_prop in H as [H|H]); apply N.eqb_eq in H; now subst c.
Qed.

Lemma isDigit_plain (c : code_unit) : isDigit c = true -> isPlain c = true.
Proof.
  unfold isDigit, isPlain. intros H. apply andb_prop in H as [H1 H2].
  apply N.leb_le in H1, H2.
  destruct (N.eqb_spec c 34); [lia|]. destruct (N.eqb_spec c 92); [lia|].
  destruct (N.eqb_spec c 123); [lia|]. destruct (N.eqb_spec c 125); [lia|].
  reflexivity.
Qed.

Lemma isPlain_neq (c : code_unit) :
  isPlain c = true ->
  N.eqb c 34 = false /\ N.eqb c 92 = false /\
  N.eqb c 123 = false /\ N.eqb c 125 = false.
Proof.
  unfold isPlain. intros H. apply negb_true_iff in H.
  repeat (apply orb_false_iff in H as [H ?]). auto.
Qed.

Lemma ws_plain (w : jsstring) : ws w -> forallb isPlain w = true.
Proof. apply forallb_weaken, isWs_plain. Qed.

Lemma digits_plain (ds : jsstring) : digits ds -> forallb isPlain ds = true.
Proof. intros [_ H]. revert H. apply forallb_weaken, isDigit_plain. Qed.

Lemma number_plain (s : jsstring) : number s -> forallb isPlain s = true.
Proof.
  intros [sign int frac exp Hs Hi Hf He].
  rewrite !forallb_app.
  repeat (apply andb_true_intro; split).
  - destruct Hs as [->| ->]; reflexivity.
  - destruct Hi as [->|[Hd _]]; [reflexivity|now apply digits_plain].
  - destruct Hf as [->|(ds & Hd & ->)]; [reflexivity|].
    cbn [forallb]. now rewrite digits_plain.
  - destruct He as [->|(e & sg & ds & He & Hsg & Hd & ->)]; [reflexivity|].
    cbn [forallb]. rewrite forallb_app, (digits_plain ds) by assumption.
    destruct He as [->| ->]; destruct Hsg as [->|[->| ->]]; reflexivity.
Qed.

End PlainCharacters.

Section Reader.

Import Json.

Variable read : jsstring -> Z -> option nat.
Variable ok : jsstring -> Prop.

Hypothesis read_plain : forall c r d,
  isPlain c = true -> read (c :: r) d = option_map S (read r d).
Hypothesis read_open : forall r d,
  read (123%N :: r) d = option_map S (read r (d + 1)).
Hypothesis read_close : forall r d,
  read (125%N :: r) d
  = if d - 1 =? 0 then Some O else option_map S (read r (d - 1)).
Hypothesis ok_app : forall a b, ok (a ++ b) -> ok a /\ ok b.
Hypothesis ok_tail : forall c r, ok (c :: r) -> ok r.
Hypothesis read_str : forall s, str s -> ok s -> passes read s.

Lemma passes_nil : passes read [].
Proof. intros d rest _. cbn [app length]. now rewrite shift_0. Qed.

Lemma passes_app (a b : jsstring) :
  passes read a -> passes read b -> passes read (a ++ b).
Proof.
  intros Ha Hb d rest Hd.
  rewrite <- app_assoc, Ha, Hb, shift_shift, length_app by assumption.
  reflexivity.
Qed.

Lemma passes_cons (c : code_unit) (l : jsstring) :
  isPlain c = true -> passes read l -> passes read (c :: l).
Proof.
  intros Hc Hl d rest Hd. cbn [app length].
  rewrite read_plain, Hl, shift_S, shift_shift by assumption. reflexivity.
Qed.

Lemma passes_plain (l : jsstring) : forallb isPlain l = true -> passes read l.
Proof.
  induction l as [|c r IH]; intros H; [apply passes_nil|].
  cbn [forallb] in H. apply andb_prop in H as [Hc Hr].
  apply passes_cons; auto.
Qed.

Lemma passes_braced (inner : jsstring) :
  passes read inner -> passes read (123%N :: inner ++ [125%N]).
Proof.
  intros Hin d rest Hd. cbn [app].
  rewrite read_open, <- app_assoc, Hin by lia. cbn [app]. rewrite read_close.
  destruct (Z.eqb_spec (d + 1 - 1) 0) as [E|_]; [lia|].
  replace (d + 1 - 1) with d by lia.
  rewrite !shift_S, !shift_shift.
  cbn [length]. rewrite length_app. cbn [length]. f_equal; lia.
Qed.

(** From counter zero, an object whose inside is passed closes the scan at
    its final brace, whatever follows. *)
Lemma read_braced (inner rest : jsstring) :
  passes read inner ->
  read (123%N :: inner ++ 125%N :: rest) 0 = Some (S (length inner)).
Proof.
  intros Hin. rewrite read_open, Hin, read_close by lia.
  cbn. f_equal; lia.
Qed.

Ltac ok_split :=
  repeat match goal with
  | H : ok (_ ++ _) |- _ => apply ok_app in H as [? ?]
  | H : ok (_ :: _) |- _ => apply ok_tail in H
  end.

Ltac pass_step :=
  match goal with
  | IH : ok ?x -> passes read ?x |- passes read ?x => apply IH; assumption
  | Hw : ws ?w |- passes read ?w => apply passes_plain, ws_plain; exact Hw
  | Hs : str ?k |- passes read ?k => apply read_str; assumption
  | |- passes read (_ ++ _) => apply passes_app
  | |- passes read (_ :: _) => apply passes_cons; [reflexivity|]
  | |- passes read [] => apply passes_nil
  end.

Lemma passes_json :
  (forall s, value s -> ok s -> passes read s) /\
  (forall s, object s -> ok s -> passes read s) /\
  (forall s, members s -> ok s -> passes read s) /\
  (forall s, member s -> ok s -> passes read s) /\
  (forall s, array s -> ok s -> passes read s) /\
  (forall s, elements s -> ok s -> passes read s).
Proof.
  apply json_mutind; intros.
  - now apply passes_plain.
  - now apply passes_plain.
  - now apply passes_plain.
  - now apply read_str.
  - now apply passes_plain, number_plain.
  - pass_step.
  - pass_step.
  - apply passes_braced. pass_step.
  - apply passes_braced. ok_split. pass_step.
  - pass_step.
  - ok_split. repeat pass_step.
  - ok_split. repeat pass_step.
  - apply passes_cons; [reflexivity|]. apply passes_app; [|now apply passes_plain].
    pass_step.
  - ok_split. apply passes_cons; [reflexivity|].
    apply passes_app; [pass_step|now apply passes_plain].
  - ok_split. repeat pass_step.
  - ok_split. repeat pass_step.
Qed.

Lemma object_shape (X : jsstring) :
  object X -> ok X ->
  exists inner, X = 123%N :: inner ++ [125%N] /\ passes read inner.
Proof.
  intros HX Hq. destruct HX as [w Hw|m Hm].
  - exists w. split; [reflexivity|now apply passes_plain, ws_plain].
  - exists m. split; [reflexivity|].
    apply ok_tail, ok_app in Hq as [Hq _].
    now apply (proj1 (proj2 (proj2 passes_json))).
Qed.

Lemma extractWith_closed (pre body rest : jsstring) :
  ~ In 123%N pre ->
  read (123%N :: body ++ 125%N :: rest) 0 = Some (S (length body)) ->
  extractWith read (pre ++ 123%N :: body ++ 125%N :: rest)
  = 123%N :: body ++ [125%N].
Proof.
  intros Hpre Hc. unfold extractWith.
  rewrite lbrace_unit, indexOf_split by assumption.
  pose proof (len_nonneg pre).
  destruct (Z.eqb_spec (len pre) (-1)) as [E|_]; [lia|].
  rewrite skipn_len_app, Hc.
  replace (pre ++ 123%N :: body ++ 125%N :: rest)
    with (pre ++ (123%N :: body ++ [125%N]) ++ rest)
    by (cbn [app]; rewrite <- app_assoc; reflexivity).
  replace (len pre + Z.of_nat (S (length body)) + 1)
    with (len pre + len (123%N :: body ++ [125%N])).
  - apply substring_mid.
  - unfold len. cbn [length]. rewrite length_app. cbn [length]. lia.
Qed.

(** The extractor over such a reader returns a well-formed object exactly,
    whatever text surrounds it, provided no opening brace comes before it. *)
Lemma extractWith_object (X p1 p2 : jsstring) :
  object X -> ok X -> ~ In 123%N p1 ->
  extractWith read (trim (p1 ++ X ++ p2)) = X.
Proof.
  intros HX Hq Hp1.
  destruct (object_shape X HX Hq) as (inner & -> & Hin).
  assert (Ht : trim (p1 ++ (123%N :: inner ++ [125%N]) ++ p2)
               = trimStart p1 ++ 123%N :: inner ++ 125%N :: trimEnd p2).
  { unfold trim. cbn [app]. rewrite trimStart_app by reflexivity.
    rewrite <- (app_assoc inner). cbn [app].
    replace (trimStart p1 ++ 123%N :: inner ++ 125%N :: p2)
      with ((trimStart p1 ++ 123%N :: inner) ++ 125%N :: p2)
      by (rewrite <- app_assoc; reflexivity).
    rewrite trimEnd_app by reflexivity.
    rewrite <- app_assoc. reflexivity. }
  rewrite Ht. apply extractWith_closed.
  - intros H. apply Hp1. now apply in_trimStart.
  - now apply read_braced.
Qed.

End Reader.

(** ** The source loop on objects without an escaped quote *)

Section SourceReader.

Import Json.

Lemma readSource_plain (c : code_unit) (r : jsstring) (d : Z) :
  isPlain c = true -> readSource (c :: r) d = option_map S (readSource r d).
Proof.
  intros Hc. destruct (isPlain_neq c Hc) as (H1 & _ & H3 & H4).
  unfold readSource. cbn [closeOffset]. now rewrite H1, H3, H4.
Qed.

Lemma readSource_open (r : jsstring) (d : Z) :
  readSource (123%N :: r) d = option_map S (readSource r (d + 1)).
Proof. reflexivity. Qed.

Lemma readSource_close (r : jsstring) (d : Z) :
  readSource (125%N :: r) d
  = if d - 1 =? 0 then Some O else option_map S (readSource r (d - 1)).
Proof. reflexivity. Qed.

Lemma bq_tail (c : code_unit) (r : jsstring) :
  backslashQuote (c :: r) = false -> backslashQuote r = false.
Proof.
  destruct r as [|d r]; [reflexivity|].
  cbn [backslashQuote]. intros H. now apply orb_false_iff in H as [_ H].
Qed.

Lemma bq_app (a b : jsstring) :
  backslashQuote (a ++ b) = false ->
  backslashQuote a = false /\ backslashQuote b = false.
Proof.
  induction a as [|c r IH]; intros H; [now split|].
  destruct (IH (bq_tail _ _ H)) as [Hr Hb]. split; [|assumption].
  destruct r as [|d r]; [reflexivity|].
  cbn [app backslashQuote] in H |- *.
  apply orb_false_iff in H as [H _]. now rewrite H.
Qed.

Lemma bq_head (c : code_unit) (r : jsstring) :
  backslashQuote (92%N :: c :: r) = false -> c <> 34%N.
Proof.
  cbn [backslashQuote N.eqb Pos.eqb andb]. intros H ->.
  cbn in H. discriminate H.
Qed.

Lemma isUnescaped_not_quote (c : code_unit) : isUnescaped c = true -> c <> 34%N.
Proof. unfold isUnescaped. intros H ->. discriminate H. Qed.

Lemma isHex_not_quote (c : code_unit) : isHex c = true -> c <> 34%N.
Proof. intros H ->. discriminate H. Qed.

(** Without an escaped quote the characters of a string hold no quote. *)
Lemma chars_no_quote (b : jsstring) :
  chars b -> backslashQuote (b ++ [34%N]) = false -> ~ In 34%N b.
Proof.
  induction 1 as [|c r Hc _ IH|c r Hc _ IH|h1 h2 h3 h4 r Hh _ IH]; intros Hq.
  - intros [].
  - intros [E|Hin].
    + now apply (isUnescaped_not_quote c).
    + apply IH; [|assumption]. now apply (bq_tail c).
  - cbn [app] in Hq. pose proof (bq_head _ _ Hq) as Hne.
    apply bq_tail, bq_tail in Hq.
    intros [E|[E|Hin]]; [discriminate E|congruence|now apply IH].
  - cbn [app] in Hq. do 6 apply bq_tail in Hq.
    cbn [forallb] in Hh.
    apply andb_prop in Hh as [H1 Hh]. apply andb_prop in Hh as [H2 Hh].
    apply andb_prop in Hh as [H3 Hh]. apply andb_prop in Hh as [H4 _].
    intros [E|[E|[E|[E|[E|[E|Hin]]]]]]; try discriminate E.
    + now apply (isHex_not_quote h1).
    + now apply (isHex_not_quote h2).
    + now apply (isHex_not_quote h3).
    + now apply (isHex_not_quote h4).
    + now apply IH.
Qed.

Lemma inside_string (b : jsstring) :
  ~ In 34%N b ->
  forall d rest, closeOffset (b ++ 34%N :: rest) d true
                 = shift (S (length b)) (closeOffset rest d false).
Proof.
  induction b as [|c r IH]; intros Hn d rest.
  - cbn [app closeOffset length N.eqb Pos.eqb negb]. apply shift_S.
  - cbn [app closeOffset length].
    destruct (N.eqb_spec c 34) as [->|_]; [exfalso; apply Hn; now left|].
    rewrite IH by (intros H; apply Hn; now right).
    rewrite shift_S, shift_shift. reflexivity.
Qed.

Lemma readSource_str (s : jsstring) :
  str s -> backslashQuote s = false -> passes readSource s.
Proof.
  intros [b Hb] Hq d rest _.
  assert (Hn : ~ In 34%N b).
  { apply chars_no_quote; [assumption|]. now apply (bq_tail 34%N). }
  unfold readSource. cbn [app closeOffset N.eqb Pos.eqb negb].
  rewrite <- app_assoc. cbn [app].
  rewrite inside_string, shift_S, shift_shift by assumption.
  cbn [length]. rewrite length_app. cbn [length]. f_equal; lia.
Qed.

(** A well-formed object in which no quote follows a backslash is returned
    exactly, whatever text surrounds it, provided no opening brace comes
    before it. *)
Theorem extractJson_object_no_escaped_quote (X p1 p2 : jsstring) :
  object X -> backslashQuote X = false -> ~ In 123%N p1 ->
  extractJson (p1 ++ X ++ p2) = Some X.
Proof.
  intros HX Hq Hp1. rewrite extractJson_closed. f_equal.
  change (extractTrimmed (trim (p1 ++ X ++ p2)))
    with (extractWith readSource (trim (p1 ++ X ++ p2))).
  apply (extractWith_object readSource (fun s => backslashQuote s = false)
           readSource_plain readSource_open readSource_close
           bq_app bq_tail readSource_str); assumption.
Qed.

Lemma extractJson_object_no_escaped_quote_witness :
  extractJson sample_plain = Some sample_object.
Proof.
  apply (extractJson_object_no_escaped_quote
           sample_object (lit "Here: ") (lit " done")).
  - apply (object_members (q ++ lit "score" ++ q ++ lit ": 94")).
    apply members_one.
    apply (member_pair [] (34%N :: lit "score" ++ [34%N]) [] (lit " ")
             (lit "94") []); try reflexivity.
    + now apply str_key.
    + apply value_number.
      apply (number_parts [] (lit "94") [] []); try (now left).
      right. split; [split; [discriminate|reflexivity]|discriminate].
  - reflexivity.
  - vm_compute. intros H. repeat (destruct H as [H|H]; [discriminate H|]). exact H.
Defined.

End SourceReader.

(** ** The reader of the specification on all objects *)

Section IntendedReader.

Import Json.

Lemma readIntended_plain (c : code_unit) (r : jsstring) (d : Z) :
  isPlain c = true -> readIntended (c :: r) d = option_map S (readIntended r d).
Proof.
  intros Hc. destruct (isPlain_neq c Hc) as (H1 & H2 & H3 & H4).
  unfold readIntended. cbn [closeOffsetIntended]. now rewrite H1, H2, H3, H4.
Qed.

Lemma readIntended_open (r : jsstring) (d : Z) :
  readIntended (123%N :: r) d = option_map S (readIntended r (d + 1)).
Proof. reflexivity. Qed.

Lemma readIntended_close (r : jsstring) (d : Z) :
  readIntended (125%N :: r) d
  = if d - 1 =? 0 then Some O else option_map S (readIntended r (d - 1)).
Proof. reflexivity. Qed.

Lemma intended_in_string (c : code_unit) (r : jsstring) (d : Z) :
  N.eqb c 34 = false -> N.eqb c 92 = false ->
  closeOffsetIntended (c :: r) d true false
  = shift 1 (closeOffsetIntended r d true false).
Proof. intros H1 H2. cbn [closeOffsetIntended]. rewrite H1, H2. apply shift_S. Qed.

Lemma intended_escaped (c : code_unit) (r : jsstring) (d : Z) :
  closeOffsetIntended (92%N :: c :: r) d true false
  = shift 2 (closeOffsetIntended r d true false).
Proof.
  cbn [closeOffsetIntended N.eqb Pos.eqb]. now rewrite !shift_S, shift_shift.
Qed.

Lemma isUnescaped_neq (c : code_unit) :
  isUnescaped c = true -> N.eqb c 34 = false /\ N.eqb c 92 = false.
Proof.
  unfold isUnescaped. intros H.
  apply andb_prop in H as [H H2]. apply andb_prop in H as [_ H1].
  now rewrite negb_true_iff in H1, H2.
Qed.

Lemma isHex_neq (c : code_unit) :
  isHex c = true -> N.eqb c 34 = false /\ N.eqb c 92 = false.
Proof.
  intros H. split; apply N.eqb_neq; intros ->; discriminate H.
Qed.

(** Inside a string the reader of the specification runs to the closing
    quote, escapes included. *)
Lemma intended_string_body (b : jsstring) :
  chars b ->
  forall d rest, closeOffsetIntended (b ++ 34%N :: rest) d true false
                 = shift (S (length b)) (readIntended rest d).
Proof.
  induction 1 as [|c r Hc _ IH|c r Hc _ IH|h1 h2 h3 h4 r Hh _ IH]; intros d rest.
  - cbn [app closeOffsetIntended length N.eqb Pos.eqb negb]. apply shift_S.
  - destruct (isUnescaped_neq c Hc) as [H1 H2].
    cbn [app]. rewrite intended_in_string, IH, shift_shift by assumption.
    reflexivity.
  - cbn [app]. rewrite intended_escaped, IH, shift_shift. reflexivity.
  - cbn [forallb] in Hh.
    apply andb_prop in Hh as [G1 Hh]. apply andb_prop in Hh as [G2 Hh].
    apply andb_prop in Hh as [G3 Hh]. apply andb_prop in Hh as [G4 _].
    apply isHex_neq in G1 as [? ?], G2 as [? ?], G3 as [? ?], G4 as [? ?].
    cbn [app]. rewrite intended_escaped.
    rewrite !intended_in_string, IH, !shift_shift by assumption.
    reflexivity.
Qed.

Lemma readIntended_str (s : jsstring) : str s -> True -> passes readIntended s.
Proof.
  intros [b Hb] _ d rest _.
  unfold readIntended at 1. cbn [app closeOffsetIntended N.eqb Pos.eqb negb].
  rewrite <- app_assoc. cbn [app].
  rewrite intended_string_body, shift_S, shift_shift by assumption.
  cbn [length]. rewrite length_app. cbn [length]. f_equal; lia.
Qed.

(** With the scan of the specification every well-formed object is returned
    exactly, escaped quotes or not. *)
Theorem extractIntended_object (X p1 p2 : jsstring) :
  object X -> ~ In 123%N p1 -> extractIntended (p1 ++ X ++ p2) = X.
Proof.
  intros HX Hp1. unfold extractIntended.
  apply (extractWith_object readIntended (fun _ => True)
           readIntended_plain readIntended_open readIntended_close
           (fun _ _ _ => conj I I) (fun _ _ _ => I) readIntended_str);
    [assumption|exact I|assumption].
Qed.

Lemma extractIntended_object_witness :
  extractIntended (proseBefore ++ objEscClose ++ proseAfter) = objEscClose.
Proof.
  apply (extractIntended_object objEscClose proseBefore proseAfter).
  - apply objEscClose_object.
  - vm_compute. intros H. repeat (destruct H as [H|H]; [discriminate H|]). exact H.
Defined.

(** On a text without a backslash the two readers agree, and so do the two
    extractors. *)
Lemma closeOffsetIntended_no_backslash (l : jsstring) :
  forall d s, ~ In 92%N l -> closeOffsetIntended l d s false = closeOffset l d s.
Proof.
  induction l as [|c r IH]; intros d s Hn; [reflexivity|].
  assert (Hr : ~ In 92%N r) by (intros H; apply Hn; now right).
  cbn [closeOffsetIntended closeOffset].
  destruct (N.eqb_spec c 92) as [->|_]; [exfalso; apply Hn; now left|].
  repeat match goal with
  | |- context [if ?b then _ else _] => destruct b
  end; rewrite ?IH by assumption; reflexivity.
Qed.

Theorem extractJson_intended_no_backslash (text : jsstring) :
  ~ In 92%N text -> extractJson text = Some (extractIntended text).
Proof.
  intros Hn. rewrite extractJson_closed. f_equal.
  unfold extractIntended, extractTrimmed, extractWith, readIntended. cbv zeta.
  destruct (indexOf (trim text) lbrace =? -1); [reflexivity|].
  rewrite closeOffsetIntended_no_backslash; [reflexivity|].
  intros H. apply (not_in_trim _ _ Hn).
  rewrite <- (firstn_skipn (Z.to_nat (indexOf (trim text) lbrace)) (trim text)).
  apply in_or_app. now right.
Qed.

Lemma extractJson_intended_no_backslash_witness :
  extractJson sample_plain = Some (extractIntended sample_plain).
Proof.
  apply extractJson_intended_no_backslash.
  vm_compute. intros H. repeat (destruct H as [H|H]; [discriminate H|]). exact H.
Defined.

End IntendedReader.

(** * The grading route *)

(** ** Extraction by first and last brace *)

Section FirstToLast.

Lemma trim_around (p1 : jsstring) (h : code_unit) (m : jsstring) (e : code_unit)
      (p2 : jsstring) :
  isWhiteSpace h = false -> isWhiteSpace e = false ->
  trim (p1 ++ (h :: m ++ [e]) ++ p2) = trimStart p1 ++ h :: m ++ e :: trimEnd p2.
Proof.
  intros Hh He. unfold trim. cbn [app]. rewrite trimStart_app by assumption.
  rewrite <- (app_assoc m). cbn [app].
  replace (trimStart p1 ++ h :: m ++ e :: p2)
    with ((trimStart p1 ++ h :: m) ++ e :: p2)
    by (rewrite <- app_assoc; reflexivity).
  rewrite trimEnd_app by assumption.
  rewrite <- app_assoc. reflexivity.
Qed.

Lemma in_trimEnd (c : code_unit) (a : jsstring) : In c (trimEnd a) -> In c a.
Proof.
  intros H. destruct (trimEnd_decomp a) as (r & E & _).
  rewrite E. apply in_or_app. now left.
Qed.

Lemma extractFirstToLast_split (text pre mid post : jsstring) :
  trim text = pre ++ 123%N :: mid ++ 125%N :: post ->
  ~ In 123%N pre -> ~ In 125%N post ->
  extractFirstToLast text = 123%N :: mid ++ [125%N].
Proof.
  intros Ht Hpre Hpost. unfold extractFirstToLast. cbv zeta.
  rewrite Ht, lbrace_unit, rbrace_unit, indexOf_split by assumption.
  replace (pre ++ 123%N :: mid ++ 125%N :: post)
    with ((pre ++ 123%N :: mid) ++ 125%N :: post)
    by (rewrite <- app_assoc; reflexivity).
  rewrite lastIndexOf_split by assumption.
  pose proof (len_nonneg pre). pose proof (len_nonneg (pre ++ 123%N :: mid)).
  destruct (Z.eqb_spec (len pre) (-1)) as [E|_]; [lia|].
  destruct (Z.eqb_spec (len (pre ++ 123%N :: mid)) (-1)) as [E|_]; [lia|].
  cbn [negb andb].
  replace ((pre ++ 123%N :: mid) ++ 125%N :: post)
    with (pre ++ (123%N :: mid ++ [125%N]) ++ post)
    by (cbn [app]; rewrite <- !app_assoc; reflexivity).
  replace (len (pre ++ 123%N :: mid) + 1)
    with (len pre + len (123%N :: mid ++ [125%N])).
  - apply substring_mid.
  - rewrite len_app. unfold len. cbn [length]. rewrite length_app. cbn [length]. lia.
Qed.

Lemma extractFirstToLast_around (p1 m p2 : jsstring) :
  ~ In 123%N p1 -> ~ In 125%N p2 ->
  extractFirstToLast (p1 ++ (123%N :: m ++ [125%N]) ++ p2) = 123%N :: m ++ [125%N].
Proof.
  intros H1 H2.
  apply (extractFirstToLast_split _ (trimStart p1) m (trimEnd p2)).
  - now apply trim_around.
  - intros H. apply H1. now apply in_trimStart.
  - intros H. apply H2. now apply in_trimEnd.
Qed.

(** X1. A text that runs from an opening brace to a closing brace is cut out
    exactly by the route, whatever its content, when no opening brace comes
    before it and no closing brace after it. *)
Theorem extractFirstToLast_exact (p1 m p2 : jsstring) :
  ~ In 123%N p1 -> ~ In 125%N p2 ->
  extractFirstToLast (p1 ++ (123%N :: m ++ [125%N]) ++ p2) = 123%N :: m ++ [125%N].
Proof. apply extractFirstToLast_around. Qed.

Lemma extractFirstToLast_exact_witness :
  extractFirstToLast (proseBefore ++ objEscClose ++ proseAfter) = objEscClose.
Proof.
  apply (extractFirstToLast_exact proseBefore
           (q ++ lit "a" ++ q ++ lit ":" ++ q ++ bs ++ q ++ lit "}" ++ q) proseAfter).
  - vm_compute. intros H. repeat (destruct H as [H|H]; [discriminate H|]). exact H.
  - vm_compute. intros H. repeat (destruct H as [H|H]; [discriminate H|]). exact H.
Defined.

Lemma extractFirstToLast_no_lbrace (text : jsstring) :
  ~ In 123%N (trim text) -> extractFirstToLast text = trim text.
Proof.
  intros H. unfold extractFirstToLast. cbv zeta.
  now rewrite lbrace_unit, indexOf_notin.
Qed.

(** X2. When the trimmed text lacks an opening brace or lacks a closing
    brace, the route leaves it as it is. *)
Theorem extractFirstToLast_missing_brace (text : jsstring) :
  ~ In 123%N (trim text) \/ ~ In 125%N (trim text) ->
  extractFirstToLast text = trim text.
Proof.
  intros [H|H]; [now apply extractFirstToLast_no_lbrace|].
  unfold extractFirstToLast; cbv zeta.
  rewrite rbrace_unit, (lastIndexOf_notin 125%N) by assumption.
  now rewrite andb_false_r.
Qed.

Lemma extractFirstToLast_missing_brace_witness :
  extractFirstToLast proseThenOpen = trim proseThenOpen.
Proof.
  apply extractFirstToLast_missing_brace. right.
  vm_compute. intros H. repeat (destruct H as [H|H]; [discriminate H|]). exact H.
Defined.

(** The two extractors on a trimmed text with an opening brace. *)
Lemma extractFirstToLast_trimmed_split (text pre post : jsstring) :
  trim text = pre ++ 123%N :: post -> ~ In 123%N pre ->
  extractFirstToLast text =
  if lastIndexOf (pre ++ 123%N :: post) rbrace =? -1 then pre ++ 123%N :: post
  else substring (pre ++ 123%N :: post) (len pre)
         (lastIndexOf (pre ++ 123%N :: post) rbrace + 1).
Proof.
  intros Ht Hpre. unfold extractFirstToLast. cbv zeta.
  rewrite Ht, lbrace_unit, indexOf_split by assumption.
  pose proof (len_nonneg pre).
  destruct (Z.eqb_spec (len pre) (-1)) as [E|_]; [lia|].
  cbn [negb andb]. now destruct (lastIndexOf _ rbrace =? -1).
Qed.

Lemma extractJson_agrees_with_route (text : jsstring) :
  scanFails text \/ ~ In 123%N (trim text) ->
  extractJson text = Some (extractFirstToLast text).
Proof.
  intros [Hfail|Hn]; rewrite extractJson_closed; f_equal.
  - destruct (split_first _ _ (scanFails_lbrace _ Hfail)) as (pre & post & Ht & Hpre).
    apply (scanFails_split _ _ _ Ht Hpre) in Hfail.
    rewrite (extractFirstToLast_trimmed_split _ _ _ Ht Hpre).
    now rewrite Ht, extractTrimmed_split, Hfail.
  - rewrite extractTrimmed_no_lbrace by assumption.
    symmetry. now apply extractFirstToLast_no_lbrace.
Qed.

(** X3. Where the strict scan of [extractJson] does not close, or there is no
    opening brace at all, [extractJson] returns what the route returns: its
    fallback is the route's cut. *)
Theorem extractJson_fallback_is_route (text : jsstring) :
  scanFails text \/ ~ In 123%N (trim text) ->
  extractJson text = Some (extractFirstToLast text).
Proof. apply extractJson_agrees_with_route. Qed.

Lemma extractJson_fallback_is_route_witness :
  extractJson responsePartial = Some (extractFirstToLast responsePartial).
Proof.
  apply extractJson_fallback_is_route. left.
  vm_compute. split; [discriminate|reflexivity].
Defined.

(** X4. For every input, what [extractJson] returns is a prefix of what the
    route returns: the strict scan can only stop earlier than the last
    closing brace. *)
Theorem extractJson_prefix_of_route (text : jsstring) :
  exists r rest, extractJson text = Some r /\ extractFirstToLast text = r ++ rest.
Proof.
  destruct (in_dec N.eq_dec 123%N (trim text)) as [Hin|Hn].
  2:{ exists (extractFirstToLast text), []. rewrite app_nil_r.
      split; [|reflexivity]. apply extractJson_agrees_with_route. now right. }
  destruct (split_first _ _ Hin) as (pre & post & Ht & Hpre).
  destruct (closeOffset (123%N :: post) 0 false) as [k|] eqn:Hc.
  2:{ exists (extractFirstToLast text), []. rewrite app_nil_r.
      split; [|reflexivity]. apply extractJson_agrees_with_route. left.
      now apply (scanFails_split _ _ _ Ht Hpre). }
  destruct (closeOffset_split _ _ _ _ Hc) as (body & rest & Hl & Hk & _).
  destruct body as [|b body]; [discriminate Hl|].
  cbn [app] in Hl. injection Hl as <- Hl. subst post k.
  destruct (in_dec N.eq_dec 125%N rest) as [Hr|Hr].
  - destruct (split_last _ _ Hr) as (u & v & -> & Hv).
    exists (123%N :: body ++ [125%N]), (u ++ [125%N]). split.
    + rewrite extractJson_closed, Ht, extractTrimmed_split, Hc by assumption.
      f_equal.
      replace (pre ++ 123%N :: body ++ 125%N :: u ++ 125%N :: v)
        with (pre ++ (123%N :: body ++ [125%N]) ++ u ++ 125%N :: v)
        by (cbn [app]; rewrite <- app_assoc; reflexivity).
      replace (len pre + Z.of_nat (length (123%N :: body)) + 1)
        with (len pre + len (123%N :: body ++ [125%N])).
      * apply substring_mid.
      * unfold len. cbn [length]. rewrite length_app. cbn [length]. lia.
    + rewrite (extractFirstToLast_split text pre (body ++ 125%N :: u) v);
        [|rewrite Ht, <- app_assoc; reflexivity|assumption|assumption].
      cbn [app]. rewrite <- !app_assoc. reflexivity.
  - exists (123%N :: body ++ [125%N]), []. rewrite app_nil_r. split.
    + rewrite extractJson_closed, Ht, extractTrimmed_split, Hc by assumption.
      f_equal.
      replace (pre ++ 123%N :: body ++ 125%N :: rest)
        with (pre ++ (123%N :: body ++ [125%N]) ++ rest)
        by (cbn [app]; rewrite <- app_assoc; reflexivity).
      replace (len pre + Z.of_nat (length (123%N :: body)) + 1)
        with (len pre + len (123%N :: body ++ [125%N])).
      * apply substring_mid.
      * unfold len. cbn [length]. rewrite length_app. cbn [length]. lia.
    + now apply (extractFirstToLast_split text pre body rest).
Qed.

End FirstToLast.

(** ** Escaping line breaks between quotes *)

Section FixedJson.

Lemma countUnit_app (c : code_unit) (a b : jsstring) :
  countUnit c (a ++ b) = (countUnit c a + countUnit c b)%nat.
Proof. unfold countUnit. now rewrite filter_app, length_app. Qed.

Lemma countUnit_cons (c x : code_unit) (a : jsstring) :
  countUnit c (x :: a) = ((if N.eqb c x then 1 else 0) + countUnit c a)%nat.
Proof. unfold countUnit. cbn [filter]. now destruct (N.eqb c x). Qed.

Lemma countUnit_notin (c : code_unit) (a : jsstring) :
  ~ In c a -> countUnit c a = 0%nat.
Proof.
  induction a as [|x a IH]; intros Hn; [reflexivity|].
  rewrite countUnit_cons, IH by (intros H; apply Hn; now right).
  destruct (N.eqb_spec c x) as [->|_]; [exfalso; apply Hn; now left|reflexivity].
Qed.

Lemma countUnit_in (c : code_unit) (a : jsstring) :
  countUnit c a = 0%nat -> ~ In c a.
Proof.
  induction a as [|x a IH]; intros H0 Hin; [destruct Hin|].
  rewrite countUnit_cons in H0.
  destruct (N.eqb_spec c x) as [->|Hne]; [discriminate H0|].
  destruct Hin as [E|Hin]; [congruence|]. now apply IH.
Qed.

Lemma replaceUnit_app (c : code_unit) (rep a b : jsstring) :
  replaceUnit c rep (a ++ b) = replaceUnit c rep a ++ replaceUnit c rep b.
Proof. apply flat_map_app. Qed.

Lemma replaceUnit_absent (c : code_unit) (rep s : jsstring) :
  ~ In c s -> replaceUnit c rep s = s.
Proof.
  induction s as [|x s IH]; intros Hn; [reflexivity|].
  unfold replaceUnit in *. cbn [flat_map].
  destruct (N.eqb_spec x c) as [->|_]; [exfalso; apply Hn; now left|].
  cbn [app]. f_equal. apply IH. intros H. apply Hn. now right.
Qed.

Lemma in_replaceUnit (x c : code_unit) (rep s : jsstring) :
  In x (replaceUnit c rep s) -> (In x s /\ x <> c) \/ In x rep.
Proof.
  induction s as [|y s IH]; [intros []|].
  unfold replaceUnit in *. cbn [flat_map]. intros H.
  apply in_app_or in H as [H|H].
  - destruct (N.eqb_spec y c) as [->|Hne]; [now right|].
    destruct H as [->|[]]. left. split; [now left|assumption].
  - destruct (IH H) as [[H1 H2]|H1]; [left; split; [now right|assumption]|now right].
Qed.

Lemma countUnit_replaceUnit (x c : code_unit) (rep s : jsstring) :
  x <> c -> ~ In x rep -> countUnit x (replaceUnit c rep s) = countUnit x s.
Proof.
  intros Hxc Hrep. induction s as [|y s IH]; [reflexivity|].
  unfold replaceUnit in *. cbn [flat_map].
  rewrite countUnit_app, IH, countUnit_cons.
  destruct (N.eqb_spec y c) as [->|Hne].
  - rewrite countUnit_notin by assumption.
    destruct (N.eqb_spec x c); [contradiction|reflexivity].
  - rewrite countUnit_cons. cbn [countUnit filter length]. lia.
Qed.

Lemma in_escapeBreaks (x : code_unit) (b : jsstring) :
  In x (escapeBreaks b) ->
  (In x b /\ x <> 10%N /\ x <> 13%N) \/ In x [92%N; 110%N; 114%N].
Proof.
  unfold escapeBreaks. intros H.
  apply in_replaceUnit in H as [[H H13]|H].
  - apply in_replaceUnit in H as [[H H10]|H]; [now left|].
    right. destruct H as [<-|[<-|[]]]; cbn; auto.
  - right. destruct H as [<-|[<-|[]]]; cbn; auto.
Qed.

Lemma escapeBreaks_no_break (c : code_unit) (b : jsstring) :
  c = 10%N \/ c = 13%N -> ~ In c (escapeBreaks b).
Proof.
  intros Hc H. apply in_escapeBreaks in H as [(_ & H10 & H13)|H].
  - destruct Hc; contradiction.
  - destruct Hc as [-> | ->]; cbn in H; intuition discriminate.
Qed.

Lemma escapeBreaks_no_quote (b : jsstring) :
  ~ In 34%N b -> ~ In 34%N (escapeBreaks b).
Proof.
  intros Hn H. apply in_escapeBreaks in H as [(H & _)|H]; [contradiction|].
  cbn in H. intuition discriminate.
Qed.

Lemma escapeBreaks_absent (b : jsstring) :
  ~ In 10%N b -> ~ In 13%N b -> escapeBreaks b = b.
Proof.
  intros H10 H13. unfold escapeBreaks.
  now rewrite (replaceUnit_absent 10%N), (replaceUnit_absent 13%N).
Qed.

Lemma escapeBreaks_idem (b : jsstring) : escapeBreaks (escapeBreaks b) = escapeBreaks b.
Proof. apply escapeBreaks_absent; apply escapeBreaks_no_break; auto. Qed.

Lemma countUnit_escapeBreaks (x : code_unit) (b : jsstring) :
  ~ In x [10%N; 13%N; 92%N; 110%N; 114%N] ->
  countUnit x (escapeBreaks b) = countUnit x b.
Proof.
  intros Hx. unfold escapeBreaks.
  rewrite !countUnit_replaceUnit; try reflexivity;
    intros H; apply Hx; cbn in *; intuition auto.
Qed.

(** How the replace reads a text, by its first quotes. *)

Lemma fixScan_no_quote (s : jsstring) :
  ~ In 34%N s ->
  fixScan s None = s /\ forall body, fixScan s (Some body) = 34%N :: body ++ s.
Proof.
  induction s as [|c r IH]; intros Hn.
  - split; [reflexivity|]. intros body. cbn. now rewrite app_nil_r.
  - assert (Hr : ~ In 34%N r) by (intros H; apply Hn; now right).
    destruct (IH Hr) as [IH1 IH2]. cbn [fixScan].
    destruct (N.eqb_spec c 34) as [->|_]; [exfalso; apply Hn; now left|].
    split; [now rewrite IH1|].
    intros body. rewrite IH2, <- app_assoc. reflexivity.
Qed.

Lemma fixScan_open (a r : jsstring) :
  ~ In 34%N a -> fixScan (a ++ 34%N :: r) None = a ++ fixScan r (Some []).
Proof.
  induction a as [|c a IH]; intros Hn; [reflexivity|].
  cbn [app fixScan].
  destruct (N.eqb_spec c 34) as [->|_]; [exfalso; apply Hn; now left|].
  f_equal. apply IH. intros H. apply Hn. now right.
Qed.

Lemma fixScan_close (b rest : jsstring) :
  ~ In 34%N b ->
  forall body, fixScan (b ++ 34%N :: rest) (Some body)
               = 34%N :: escapeBreaks (body ++ b) ++ 34%N :: fixScan rest None.
Proof.
  induction b as [|c b IH]; intros Hn body.
  - cbn [app fixScan N.eqb Pos.eqb]. now rewrite app_nil_r.
  - cbn [app fixScan].
    destruct (N.eqb_spec c 34) as [->|_]; [exfalso; apply Hn; now left|].
    rewrite IH by (intros H; apply Hn; now right).
    now rewrite <- app_assoc.
Qed.

Lemma fixedJson_none (s : jsstring) : ~ In 34%N s -> fixedJson s = s.
Proof. intros H. now apply fixScan_no_quote. Qed.

Lemma fixedJson_one (a b : jsstring) :
  ~ In 34%N a -> ~ In 34%N b -> fixedJson (a ++ 34%N :: b) = a ++ 34%N :: b.
Proof.
  intros Ha Hb. unfold fixedJson. rewrite fixScan_open by assumption.
  now rewrite (proj2 (fixScan_no_quote b Hb)).
Qed.

Lemma fixedJson_pair (a b rest : jsstring) :
  ~ In 34%N a -> ~ In 34%N b ->
  fixedJson (a ++ 34%N :: b ++ 34%N :: rest)
  = a ++ 34%N :: escapeBreaks b ++ 34%N :: fixedJson rest.
Proof.
  intros Ha Hb. unfold fixedJson.
  now rewrite fixScan_open, fixScan_close by assumption.
Qed.

(** Every text has no quote, one quote, or a first pair of quotes followed
    by a text of the same kind. *)
Lemma quote_pairs_ind (P : jsstring -> Prop) :
  (forall s, ~ In 34%N s -> P s) ->
  (forall a b, ~ In 34%N a -> ~ In 34%N b -> P (a ++ 34%N :: b)) ->
  (forall a b rest, ~ In 34%N a -> ~ In 34%N b -> P rest ->
                    P (a ++ 34%N :: b ++ 34%N :: rest)) ->
  forall s, P s.
Proof.
  intros Hnone Hone Hpair s.
  remember (length s) as n eqn:Hlen. revert s Hlen.
  induction n as [n IH] using lt_wf_ind. intros s Hlen.
  destruct (in_dec N.eq_dec 34%N s) as [Hin|Hn]; [|now apply Hnone].
  destruct (split_first _ _ Hin) as (a & r & -> & Ha).
  destruct (in_dec N.eq_dec 34%N r) as [Hin2|Hn2]; [|now apply Hone].
  destruct (split_first _ _ Hin2) as (b & rest & -> & Hb).
  apply Hpair; [assumption|assumption|].
  apply (IH (length rest)); [|reflexivity].
  subst n. rewrite length_app. cbn [length]. rewrite length_app. cbn [length]. lia.
Qed.

Lemma app_split_unit (l1 l2 x : jsstring) (c : code_unit) (y : jsstring) :
  l1 ++ l2 = x ++ c :: y ->
  (exists z, l1 = x ++ c :: z /\ y = z ++ l2) \/
  (exists z, x = l1 ++ z /\ l2 = z ++ c :: y).
Proof.
  intros H. apply app_eq_app in H. destruct H as (l & [[E1 E2]|[E1 E2]]).
  - destruct l as [|d l]; cbn [app] in E2.
    + right. exists []. rewrite app_nil_r in *. cbn [app]. split; congruence.
    + injection E2 as <- E2. left. now exists l.
  - right. now exists l.
Qed.

(** X5. In the text the route hands to the parser, no line feed and no
    carriage return stands between the two quotes of a pair: before any such
    character the number of quotes is even, or no quote follows it. *)
Theorem fixedJson_no_break_in_pair (t x : jsstring) (c : code_unit) (y : jsstring) :
  fixedJson t = x ++ c :: y -> c = 10%N \/ c = 13%N ->
  Nat.even (countUnit 34%N x) = true \/ ~ In 34%N y.
Proof.
  intros H Hc. revert x y H.
  induction t as [s Hs|a b Ha Hb|a b rest Ha Hb IH] using quote_pairs_ind;
    intros x y H.
  - rewrite fixedJson_none in H by assumption. right.
    intros Hy. apply Hs. rewrite H. apply in_or_app. right. now right.
  - rewrite fixedJson_one in H by assumption.
    apply app_split_unit in H as [(z & E1 & E2)|(z & E1 & E2)].
    + left. rewrite countUnit_notin; [reflexivity|].
      intros Hx. apply Ha. rewrite E1. apply in_or_app. now left.
    + destruct z as [|d z]; cbn [app] in E2.
      * injection E2 as E _. destruct Hc; subst c; discriminate E.
      * injection E2 as _ E2. right. intros Hy. apply Hb.
        rewrite E2. apply in_or_app. right. now right.
  - rewrite fixedJson_pair in H by assumption.
    apply app_split_unit in H as [(z & E1 & E2)|(z & E1 & E2)].
    { left. rewrite countUnit_notin; [reflexivity|].
      intros Hx. apply Ha. rewrite E1. apply in_or_app. now left. }
    destruct z as [|d z]; cbn [app] in E2.
    { injection E2 as E _. destruct Hc; subst c; discriminate E. }
    injection E2 as <- E2.
    apply app_split_unit in E2 as [(z' & E3 & E4)|(z' & E3 & E4)].
    { exfalso. apply (escapeBreaks_no_break c b Hc).
      rewrite E3. apply in_or_app. right. now left. }
    destruct z' as [|d z']; cbn [app] in E4.
    { injection E4 as E _. destruct Hc; subst c; discriminate E. }
    injection E4 as <- E4.
    destruct (IH _ _ E4) as [He|Hy]; [left|now right].
    subst x z. rewrite countUnit_app, countUnit_cons, countUnit_app, countUnit_cons.
    rewrite (countUnit_notin _ a Ha).
    rewrite (countUnit_notin _ _ (escapeBreaks_no_quote b Hb)).
    cbn [N.eqb Pos.eqb Nat.add]. exact He.
Qed.

Lemma fixedJson_no_break_in_pair_witness :
  Nat.even (countUnit 34%N (lit "{" ++ q ++ lit "Hi\n\nYou" ++ q)) = true \/
  ~ In 34%N (lit "}").
Proof.
  apply (fixedJson_no_break_in_pair
           (lit "{" ++ q ++ lit "Hi" ++ [10%N; 10%N] ++ lit "You" ++ q ++ [10%N] ++ lit "}")
           _ 10%N).
  - vm_compute. reflexivity.
  - now left.
Defined.

(** X6. Escaping is idempotent: applied to its own result it changes
    nothing. *)
Theorem fixedJson_idempotent (t : jsstring) : fixedJson (fixedJson t) = fixedJson t.
Proof.
  induction t as [s Hs|a b Ha Hb|a b rest Ha Hb IH] using quote_pairs_ind.
  - now rewrite !(fixedJson_none s) by assumption.
  - now rewrite !(fixedJson_one a b) by assumption.
  - rewrite (fixedJson_pair a b rest) by assumption.
    rewrite fixedJson_pair by (assumption || now apply escapeBreaks_no_quote).
    now rewrite escapeBreaks_idem, IH.
Qed.

Lemma fixedJson_same (t : jsstring) :
  (countUnit 34%N t < 2)%nat \/ (~ In 10%N t /\ ~ In 13%N t) ->
  fixedJson t = t.
Proof.
  induction t as [s Hs|a b Ha Hb|a b rest Ha Hb IH] using quote_pairs_ind;
    intros H.
  - now apply fixedJson_none.
  - now apply fixedJson_one.
  - destruct H as [H|[H10 H13]].
    + exfalso. revert H.
      rewrite countUnit_app, countUnit_cons, countUnit_app, countUnit_cons.
      cbn [N.eqb Pos.eqb]. lia.
    + rewrite fixedJson_pair by assumption.
      rewrite escapeBreaks_absent, IH; [reflexivity| | |].
      * right. split; intros Hin; [apply H10|apply H13];
          apply in_or_app; right; right; apply in_or_app; right; now right.
      * intros Hin. apply H10. apply in_or_app. right. right.
        apply in_or_app. now left.
      * intros Hin. apply H13. apply in_or_app. right. right.
        apply in_or_app. now left.
Qed.

(** X7. A text with fewer than two quotes, or without any line feed or
    carriage return, is handed on unchanged. *)
Theorem fixedJson_unchanged (t : jsstring) :
  (countUnit 34%N t < 2)%nat \/ (~ In 10%N t /\ ~ In 13%N t) ->
  fixedJson t = t.
Proof. apply fixedJson_same. Qed.

Lemma fixedJson_unchanged_witness : fixedJson sample_plain = sample_plain.
Proof.
  apply fixedJson_unchanged. right.
  split; vm_compute; intros H;
    repeat (destruct H as [H|H]; [discriminate H|]); exact H.
Defined.

(** X8. Escaping keeps the number of occurrences of every code unit other
    than line feed, carriage return, backslash, n and r: it adds and removes
    no quote, brace or other character. *)
Theorem fixedJson_count (c : code_unit) (t : jsstring) :
  ~ In c [10%N; 13%N; 92%N; 110%N; 114%N] ->
  countUnit c (fixedJson t) = countUnit c t.
Proof.
  intros Hc.
  induction t as [s Hs|a b Ha Hb|a b rest Ha Hb IH] using quote_pairs_ind.
  - now rewrite fixedJson_none.
  - now rewrite fixedJson_one.
  - rewrite fixedJson_pair by assumption.
    rewrite !countUnit_app, !countUnit_cons, !countUnit_app, !countUnit_cons.
    now rewrite countUnit_escapeBreaks, IH.
Qed.

Lemma fixedJson_count_witness :
  countUnit 34%N (fixedJson responseFuller) = countUnit 34%N responseFuller.
Proof.
  apply fixedJson_count.
  intros H. repeat (destruct H as [H|H]; [discriminate H|]). exact H.
Defined.

End FixedJson.

(** * The structured route *)

(** ** Removing a markdown fence *)

Section CleanFence.

Lemma isPrefix_app (p r : jsstring) : isPrefix p (p ++ r) = true.
Proof.
  induction p as [|c p IH]; [reflexivity|].
  cbn [app isPrefix]. now rewrite N.eqb_refl, IH.
Qed.

Lemma isPrefix_split (p s : jsstring) :
  isPrefix p s = true -> exists r, s = p ++ r.
Proof.
  revert s. induction p as [|c p IH]; intros s H; [now exists s|].
  destruct s as [|d s]; [discriminate H|].
  cbn [isPrefix] in H. apply andb_prop in H as [Hc Hp].
  apply N.eqb_eq in Hc. subst d.
  destruct (IH _ Hp) as (r & ->). now exists r.
Qed.

Lemma skipn_length_app (p r : jsstring) : skipn (length p) (p ++ r) = r.
Proof. now rewrite skipn_app, skipn_all, Nat.sub_diag. Qed.

Lemma trimStart_ws (l r : jsstring) :
  forallb isWhiteSpace l = true -> trimStart (l ++ r) = trimStart r.
Proof.
  induction l as [|c l IH]; intros H; [reflexivity|].
  cbn [forallb] in H. apply andb_prop in H as [Hc Hl].
  cbn [app trimStart]. rewrite Hc. now apply IH.
Qed.

Lemma trimEnd_ws (l r : jsstring) :
  forallb isWhiteSpace r = true -> trimEnd (l ++ r) = trimEnd l.
Proof.
  intros H. unfold trimEnd. rewrite rev_app_distr, trimStart_ws; [reflexivity|].
  rewrite forallb_forall in *. intros x Hx. apply H. now apply in_rev.
Qed.

Lemma trimmed_trimEnd (X : jsstring) : trimmed X -> trimEnd X = X.
Proof. intros [_ H]. unfold trimEnd. now rewrite H, rev_involutive. Qed.

Lemma trimStart_trimmed_app (X r : jsstring) :
  trimmed X -> X <> [] -> trimStart (X ++ r) = X ++ r.
Proof.
  intros HX Hne. destruct X as [|h X]; [contradiction|].
  cbn [app]. apply trimStart_head. now apply (trimmed_head h X).
Qed.

(** After the opening fence, its white space and a text [X] without white
    space at its ends, the closing fence and the white space before it are
    taken away. *)
Lemma strip_fenced (p w1 X w2 : jsstring) :
  forallb isWhiteSpace w1 = true -> forallb isWhiteSpace w2 = true ->
  trimmed X ->
  stripTrailFence (stripLead p (p ++ w1 ++ X ++ w2 ++ fence)) = X.
Proof.
  intros H1 H2 HX. unfold stripLead.
  rewrite isPrefix_app, skipn_length_app, trimStart_ws by assumption.
  assert (Hend : forall Y, stripTrailFence (Y ++ w2 ++ fence) = trimEnd Y).
  { intros Y. unfold stripTrailFence.
    rewrite !rev_app_distr, <- app_assoc, isPrefix_app.
    replace (length fence) with (length (rev fence)) by apply length_rev.
    rewrite skipn_length_app, <- rev_app_distr, rev_involutive.
    now apply trimEnd_ws. }
  destruct X as [|h X'] eqn:E.
  - cbn [app]. rewrite trimStart_ws by assumption. reflexivity.
  - rewrite <- E in *. rewrite trimStart_trimmed_app by (assumption || congruence).
    rewrite Hend. now apply trimmed_trimEnd.
Qed.

End CleanFence.

Section CleanFenceProperties.

Lemma isPrefix_app_both (a b r : jsstring) :
  isPrefix (a ++ b) (a ++ r) = isPrefix b r.
Proof.
  induction a as [|c a IH]; [reflexivity|].
  cbn [app isPrefix]. now rewrite N.eqb_refl, IH.
Qed.

Lemma isPrefix_app_weaken (a b s : jsstring) :
  isPrefix (a ++ b) s = true -> isPrefix a s = true.
Proof.
  revert s. induction a as [|c a IH]; intros s H; [reflexivity|].
  destruct s as [|d s]; [discriminate H|].
  cbn [app isPrefix] in *. apply andb_prop in H as [H1 H2].
  now rewrite H1, (IH _ H2).
Qed.

Lemma cleanFence_tag (tag rest : jsstring) :
  fenceTag tag rest ->
  cleanFence (tag ++ rest) = stripTrailFence (stripLead tag (tag ++ rest)).
Proof.
  intros [->|[-> Hj]]; unfold cleanFence, startsWith in *; cbv zeta.
  - now rewrite isPrefix_app.
  - change fenceJson with (fence ++ lit "json").
    now rewrite isPrefix_app_both, Hj, isPrefix_app.
Qed.

(** X9. A text [X] without white space at its ends comes back exactly from
    its fenced form: opening fence (with or without the word json), white
    space, [X], white space, closing fence. *)
Theorem cleanFence_fenced (tag w1 X w2 : jsstring) :
  fenceTag tag (w1 ++ X ++ w2 ++ fence) ->
  forallb isWhiteSpace w1 = true -> forallb isWhiteSpace w2 = true ->
  trimmed X ->
  cleanFence (tag ++ w1 ++ X ++ w2 ++ fence) = X.
Proof.
  intros Htag H1 H2 HX.
  rewrite cleanFence_tag by assumption. now apply strip_fenced.
Qed.

Lemma cleanFence_fenced_witness :
  cleanFence (fenceJson ++ [10%N] ++ sample_object ++ [10%N] ++ fence) = sample_object.
Proof.
  apply (cleanFence_fenced fenceJson [10%N] sample_object [10%N]).
  - now left.
  - reflexivity.
  - reflexivity.
  - split; reflexivity.
Defined.

(** X10. A fence that is opened and never closed (a response cut short) is
    still removed at the start: the text after it, when it has no white
    space at its ends and does not itself end with a fence, is what the
    parser gets. *)
Theorem cleanFence_unclosed (tag w1 X : jsstring) :
  fenceTag tag (w1 ++ X) ->
  forallb isWhiteSpace w1 = true -> trimmed X ->
  isPrefix (rev fence) (rev X) = false ->
  cleanFence (tag ++ w1 ++ X) = X.
Proof.
  intros Htag H1 [HX _] Hend.
  rewrite cleanFence_tag by assumption. unfold stripLead.
  rewrite isPrefix_app, skipn_length_app, trimStart_ws, HX by assumption.
  unfold stripTrailFence. now rewrite Hend.
Qed.

Lemma cleanFence_unclosed_witness :
  cleanFence (fence ++ [10%N] ++ truncatedText) = truncatedText.
Proof.
  apply (cleanFence_unclosed fence [10%N] truncatedText).
  - right. split; reflexivity.
  - reflexivity.
  - split; reflexivity.
  - reflexivity.
Defined.

(** X11. A response that does not begin with a fence, be it only because
    white space or a word comes first, is handed to the parser unchanged. *)
Theorem cleanFence_unfenced (t : jsstring) :
  startsWith t fence = false -> cleanFence t = t.
Proof.
  unfold cleanFence, startsWith. intros H. cbv zeta. rewrite H.
  destruct (isPrefix fenceJson t) eqn:Hj; [|reflexivity].
  change fenceJson with (fence ++ lit "json") in Hj.
  apply isPrefix_app_weaken in Hj. congruence.
Qed.

Lemma cleanFence_unfenced_witness :
  cleanFence ([10%N] ++ fenceJson ++ [10%N] ++ sample_object ++ [10%N] ++ fence)
  = [10%N] ++ fenceJson ++ [10%N] ++ sample_object ++ [10%N] ++ fence.
Proof. apply cleanFence_unfenced. reflexivity. Defined.

Lemma object_trimmed (X : jsstring) : Json.object X -> trimmed X.
Proof. intros [w _|m _]; apply trimmed_ends; reflexivity. Qed.

Lemma ws_no_unit (c : code_unit) (w : jsstring) :
  isWhiteSpace c = false -> forallb isWhiteSpace w = true -> ~ In c w.
Proof.
  intros Hc Hw Hin. rewrite forallb_forall in Hw.
  rewrite (Hw _ Hin) in Hc. discriminate Hc.
Qed.

(** X12. On a fenced well-formed object the fence cleaner of the structured
    route and the first-to-last cut of the grading route both return the
    object, and so does [extractJson] when no quote of the object follows a
    backslash. *)
Theorem fenced_object_all_routes (tag w1 X w2 : jsstring) :
  fenceTag tag (w1 ++ X ++ w2 ++ fence) ->
  forallb isWhiteSpace w1 = true -> forallb isWhiteSpace w2 = true ->
  Json.object X -> Json.backslashQuote X = false ->
  cleanFence (tag ++ w1 ++ X ++ w2 ++ fence) = X /\
  extractFirstToLast (tag ++ w1 ++ X ++ w2 ++ fence) = X /\
  extractJson (tag ++ w1 ++ X ++ w2 ++ fence) = Some X.
Proof.
  intros Htag H1 H2 HX Hq.
  assert (Hpre : ~ In 123%N (tag ++ w1)).
  { intros H. apply in_app_or in H as [H|H].
    - destruct Htag as [->|[-> _]]; vm_compute in H;
        repeat (destruct H as [H|H]; [discriminate H|]); exact H.
    - revert H. now apply ws_no_unit. }
  assert (Hpost : ~ In 125%N (w2 ++ fence)).
  { intros H. apply in_app_or in H as [H|H].
    - revert H. now apply ws_no_unit.
    - vm_compute in H. repeat (destruct H as [H|H]; [discriminate H|]). exact H. }
  assert (Hassoc : tag ++ w1 ++ X ++ w2 ++ fence = (tag ++ w1) ++ X ++ (w2 ++ fence))
    by now rewrite <- !app_assoc.
  split; [|split].
  - rewrite cleanFence_tag by assumption.
    apply strip_fenced; auto using object_trimmed.
  - rewrite Hassoc. destruct HX as [m _|m _]; now apply extractFirstToLast_around.
  - rewrite Hassoc. now apply extractJson_object_no_escaped_quote.
Qed.

Lemma fenced_object_all_routes_witness :
  cleanFence (fenceJson ++ [10%N] ++ sample_object ++ [10%N] ++ fence) = sample_object /\
  extractFirstToLast (fenceJson ++ [10%N] ++ sample_object ++ [10%N] ++ fence)
  = sample_object /\
  extractJson (fenceJson ++ [10%N] ++ sample_object ++ [10%N] ++ fence)
  = Some sample_object.
Proof.
  apply (fenced_object_all_routes fenceJson [10%N] sample_object [10%N]).
  - now left.
  - reflexivity.
  - reflexivity.
  - apply (Json.object_members (q ++ lit "score" ++ q ++ lit ": 94")).
    apply Json.members_one.
    apply (Json.member_pair [] (34%N :: lit "score" ++ [34%N]) [] (lit " ")
             (lit "94") []); try reflexivity.
    + now apply str_key.
    + apply Json.value_number.
      apply (Json.number_parts [] (lit "94") [] []); try (now left).
      right. split; [split; [discriminate|reflexivity]|discriminate].
  - reflexivity.
Defined.

End CleanFenceProperties.

(** ** Counting words *)

Section WordCount.

Lemma trim_blank (t : jsstring) : forallb isWhiteSpace t = true -> trim t = [].
Proof.
  intros H. unfold trim.
  rewrite <- (app_nil_r t), trimStart_ws by assumption. reflexivity.
Qed.

Lemma trimmed_of_ends (M t m : jsstring) (h e : code_unit) :
  M = h :: t -> M = m ++ [e] ->
  isWhiteSpace h = false -> isWhiteSpace e = false -> trimmed M.
Proof.
  intros E1 E2 Hh He. split.
  - rewrite E1. now apply trimStart_head.
  - rewrite E2, rev_app_distr. cbn [rev app]. now apply trimStart_head.
Qed.

Lemma trim_core (l M r : jsstring) :
  forallb isWhiteSpace l = true -> forallb isWhiteSpace r = true ->
  trimmed M -> M <> [] -> trim (l ++ M ++ r) = M.
Proof.
  intros Hl Hr HM Hne. unfold trim.
  rewrite trimStart_ws, trimStart_trimmed_app, trimEnd_ws by assumption.
  now apply trimmed_trimEnd.
Qed.

Lemma isWord_head (w : jsstring) :
  isWord w -> exists h t, w = h :: t /\ isWhiteSpace h = false.
Proof.
  intros [Hne Hw]. destruct w as [|h t]; [contradiction|].
  exists h, t. split; [reflexivity|].
  cbn [forallb] in Hw. apply andb_prop in Hw as [Hh _].
  now apply negb_true_iff in Hh.
Qed.

Lemma isWord_last (w : jsstring) :
  isWord w -> exists m e, w = m ++ [e] /\ isWhiteSpace e = false.
Proof.
  intros [Hne Hw]. destruct (exists_last Hne) as (m & e & ->).
  exists m, e. split; [reflexivity|].
  rewrite forallb_app in Hw. apply andb_prop in Hw as [_ He].
  cbn [forallb] in He. rewrite andb_true_r in He.
  now apply negb_true_iff in He.
Qed.

Lemma words_last (w0 : jsstring) (items : list (jsstring * jsstring)) :
  isWord w0 -> wellSpaced items ->
  exists m e, w0 ++ gaps items = m ++ [e] /\ isWhiteSpace e = false.
Proof.
  intros H0 Hit. revert w0 H0.
  induction Hit as [|[s w] rest [Hs Hw] _ IH]; intros w0 H0.
  - destruct (isWord_last w0 H0) as (m & e & -> & He).
    exists m, e. cbn. now rewrite app_nil_r.
  - destruct (IH w Hw) as (m & e & E & He).
    exists (w0 ++ s ++ m), e. split; [|assumption].
    unfold gaps in *. cbn [flat_map fst snd].
    rewrite <- !app_assoc. now rewrite E.
Qed.

Lemma splitWs_word (w r cur : jsstring) (b : bool) :
  isWord w -> splitWs (w ++ r) cur b = splitWs r (cur ++ w) false.
Proof.
  intros [Hne Hw]. revert cur b Hne.
  induction w as [|c w IH]; intros cur b Hne; [contradiction|].
  cbn [forallb] in Hw. apply andb_prop in Hw as [Hc Hw].
  apply negb_true_iff in Hc. cbn [app splitWs]. rewrite Hc.
  destruct w as [|d w].
  - reflexivity.
  - rewrite IH by (assumption || discriminate).
    now rewrite <- app_assoc.
Qed.

Lemma splitWs_in_sep (s r : jsstring) :
  forallb isWhiteSpace s = true -> splitWs (s ++ r) [] true = splitWs r [] true.
Proof.
  induction s as [|c s IH]; intros H; [reflexivity|].
  cbn [forallb] in H. apply andb_prop in H as [Hc Hs].
  cbn [app splitWs]. rewrite Hc. now apply IH.
Qed.

Lemma splitWs_sep (s r cur : jsstring) :
  isSep s -> splitWs (s ++ r) cur false = cur :: splitWs r [] true.
Proof.
  intros [Hne Hs]. destruct s as [|c s]; [contradiction|].
  cbn [forallb] in Hs. apply andb_prop in Hs as [Hc Hs].
  cbn [app splitWs]. rewrite Hc. f_equal. now apply splitWs_in_sep.
Qed.

Lemma count_pieces (items : list (jsstring * jsstring)) :
  wellSpaced items ->
  forall cur, isWord cur ->
    length (filter (fun w => 0 <? len w) (splitWs (gaps items) cur false))
    = S (length items).
Proof.
  induction 1 as [|[s w] rest [Hs Hw] _ IH]; intros cur Hcur.
  - cbn. destruct cur as [|c cur]; [now destruct Hcur|reflexivity].
  - unfold gaps in *. cbn [flat_map fst snd length].
    rewrite <- app_assoc, splitWs_sep, splitWs_word by assumption.
    cbn [filter app].
    assert (Hpos : (0 <? len cur) = true).
    { apply Z.ltb_lt. destruct cur as [|c cur]; [now destruct Hcur|].
      unfold len. cbn [length]. lia. }
    rewrite Hpos. cbn [length]. f_equal. now apply IH.
Qed.

(** X13. A text of white space only, the empty text included, has word
    count zero. *)
Theorem wordCount_blank (t : jsstring) :
  forallb isWhiteSpace t = true -> wordCount t = 0%nat.
Proof. intros H. unfold wordCount. now rewrite trim_blank. Qed.

Lemma wordCount_blank_witness : wordCount (lit "   ") = 0%nat.
Proof. apply wordCount_blank. reflexivity. Defined.

(** X14. The word count is the number of words: for a first word followed by
    any number of further words, each after a non-empty run of white space,
    with any white space before and after the whole, the count is the number
    of words, whatever the lengths of the runs. *)
Theorem wordCount_words (lead w0 : jsstring) (items : list (jsstring * jsstring))
        (trail : jsstring) :
  forallb isWhiteSpace lead = true -> forallb isWhiteSpace trail = true ->
  isWord w0 -> wellSpaced items ->
  wordCount (lead ++ (w0 ++ gaps items) ++ trail) = S (length items).
Proof.
  intros Hl Ht H0 Hit. unfold wordCount.
  destruct (isWord_head w0 H0) as (h & t & E0 & Hh).
  destruct (words_last w0 items H0 Hit) as (m & e & E & He).
  rewrite trim_core; try assumption.
  - unfold split_ws. rewrite splitWs_word by assumption.
    now apply count_pieces.
  - apply (trimmed_of_ends _ (t ++ gaps items) m h e); try assumption.
    now rewrite E0.
  - rewrite E0. discriminate.
Qed.

Lemma wordCount_words_witness :
  wordCount (lit "  " ++ (lit "A" ++ gaps [(lit "  ", lit "fine"); ([10%N], lit "essay.")])
                   ++ [10%N])
  = 3%nat.
Proof.
  apply (wordCount_words (lit "  ") (lit "A")
           [(lit "  ", lit "fine"); ([10%N], lit "essay.")] [10%N]).
  - reflexivity.
  - reflexivity.
  - split; [discriminate|reflexivity].
  - repeat constructor; discriminate.
Defined.

Lemma count_wordStarts (s : jsstring) :
  forall cur b, (cur <> [] -> b = false) ->
    length (filter (fun w => 0 <? len w) (splitWs s cur b))
    = match cur with
      | [] => wordStarts s true
      | _ :: _ => S (wordStarts s false)
      end.
Proof.
  induction s as [|c r IH]; intros cur b Hb.
  - cbn. now destruct cur.
  - cbn [splitWs wordStarts]. destruct (isWhiteSpace c).
    + destruct cur as [|x cur].
      * destruct b; [now rewrite IH|].
        cbn [filter]. change (0 <? len []) with false. cbv iota. now rewrite IH.
      * rewrite (Hb ltac:(discriminate)). cbn [filter].
        replace (0 <? len (x :: cur)) with true
          by (symmetry; apply Z.ltb_lt; unfold len; cbn [length]; lia).
        cbn [length]. now rewrite IH.
    + rewrite IH by reflexivity.
      destruct cur; reflexivity.
Qed.

Lemma wordStarts_ws (l r : jsstring) (p : bool) :
  forallb isWhiteSpace l = true ->
  wordStarts (l ++ r) p = wordStarts r (match l with [] => p | _ :: _ => true end).
Proof.
  revert p. induction l as [|c l IH]; intros p H; [reflexivity|].
  cbn [forallb] in H. apply andb_prop in H as [Hc Hl].
  cbn [app wordStarts]. rewrite Hc, IH by assumption. now destruct l.
Qed.

Lemma wordStarts_blank (w : jsstring) (p : bool) :
  forallb isWhiteSpace w = true -> wordStarts w p = 0%nat.
Proof.
  intros H. rewrite <- (app_nil_r w), wordStarts_ws by assumption. reflexivity.
Qed.

Lemma wordStarts_app (a r : jsstring) :
  forall p, wordStarts (a ++ r) p = (wordStarts a p + wordStarts r (endsWs a p))%nat.
Proof.
  induction a as [|c a IH]; intros p; [reflexivity|].
  cbn [app wordStarts endsWs]. destruct (isWhiteSpace c); rewrite IH; lia.
Qed.

Lemma wordCount_wordStarts (t : jsstring) : wordCount t = wordStarts t true.
Proof.
  unfold wordCount, split_ws. rewrite count_wordStarts by (intros H; now destruct H).
  unfold trim.
  destruct (trimStart_decomp t) as (l & El & Hl).
  destruct (trimEnd_decomp (trimStart t)) as (r & Er & Hr).
  rewrite El at 2. rewrite wordStarts_ws by assumption.
  replace (match l with [] => true | _ :: _ => true end) with true by now destruct l.
  rewrite Er at 2. rewrite wordStarts_app, (wordStarts_blank r) by assumption.
  lia.
Qed.

(** X19. Word counts add up: the count of two texts joined by a non-empty run
    of white space is the sum of their counts. *)
Theorem wordCount_joined (a sep b : jsstring) :
  isSep sep -> wordCount (a ++ sep ++ b) = (wordCount a + wordCount b)%nat.
Proof.
  intros [Hne Hs]. rewrite !wordCount_wordStarts, wordStarts_app.
  rewrite wordStarts_ws by assumption.
  now destruct sep.
Qed.

Lemma wordCount_joined_witness :
  wordCount (lit "A fine" ++ [10%N; 10%N] ++ lit "essay.")
  = (wordCount (lit "A fine") + wordCount (lit "essay."))%nat.
Proof.
  apply wordCount_joined. split; [discriminate|reflexivity].
Defined.

End WordCount.

(** * Both routes *)

(** ** Filling in the system prompt *)

Section Replace.

Lemma indexOf_from_spec (needle s : jsstring) :
  forall i,
    (indexOf_from needle s i = -1 /\ ~ occursIn needle s) \/
    (exists pre fol, s = pre ++ needle ++ fol /\
                     indexOf_from needle s i = i + len pre /\
                     firstOccurrence needle pre fol).
Proof.
  induction s as [|c r IH]; intros i.
  - cbn [indexOf_from]. destruct (isPrefix needle []) eqn:Hp.
    + right. destruct (isPrefix_split _ _ Hp) as (fol & E).
      exists [], fol. split; [exact E|]. split; [unfold len; cbn; lia|].
      intros u v _. cbn. lia.
    + left. split; [reflexivity|]. intros (u & v & E).
      symmetry in E. apply app_eq_nil in E as [-> E].
      apply app_eq_nil in E as [-> ->]. discriminate Hp.
  - cbn [indexOf_from]. destruct (isPrefix needle (c :: r)) eqn:Hp.
    + right. destruct (isPrefix_split _ _ Hp) as (fol & E).
      exists [], fol. split; [exact E|]. split; [unfold len; cbn; lia|].
      intros u v _. cbn. lia.
    + assert (Hhead : forall u v, c :: r = u ++ needle ++ v ->
                exists u', u = c :: u' /\ r = u' ++ needle ++ v).
      { intros [|d u'] v E; cbn [app] in E.
        - rewrite E, isPrefix_app in Hp. discriminate Hp.
        - injection E as <- E. now exists u'. }
      destruct (IH (i + 1)) as [[Hi Hno]|(pre & fol & E & Hi & Hmin)].
      * left. split; [assumption|]. intros (u & v & E).
        destruct (Hhead _ _ E) as (u' & -> & E'). apply Hno. now exists u', v.
      * right. exists (c :: pre), fol. split; [now rewrite E|].
        split; [rewrite Hi; unfold len; cbn [length]; lia|].
        intros u v E2. cbn [app] in E2. rewrite <- E in E2.
        destruct (Hhead _ _ E2) as (u' & -> & E').
        cbn [length]. apply le_n_S. apply (Hmin u' v). now rewrite <- E.
Qed.

Lemma indexOf_absent (s needle : jsstring) :
  ~ occursIn needle s -> indexOf s needle = -1.
Proof.
  intros Hn. unfold indexOf.
  destruct (indexOf_from_spec needle s 0) as [[H _]|(pre & fol & E & _)];
    [assumption|].
  exfalso. apply Hn. now exists pre, fol.
Qed.


Lemma indexOf_found (s needle : jsstring) :
  occursIn needle s ->
  exists pre fol, s = pre ++ needle ++ fol /\ indexOf s needle = len pre /\
                  firstOccurrence needle pre fol.
Proof.
  intros Hocc. unfold indexOf.
  destruct (indexOf_from_spec needle s 0) as [[_ Hno]|(pre & fol & E & Hi & Hmin)];
    [contradiction|].
  exists pre, fol. now rewrite Hi.
Qed.

Lemma replaceFirst_at (pre needle fol rep : jsstring) :
  indexOf (pre ++ needle ++ fol) needle = len pre ->
  replaceFirst (pre ++ needle ++ fol) needle rep
  = pre ++ getSubstitution needle pre fol rep ++ fol.
Proof.
  intros Hi. unfold replaceFirst. cbv zeta. rewrite Hi.
  pose proof (len_nonneg pre).
  destruct (Z.eqb_spec (len pre) (-1)) as [E|_]; [lia|].
  assert (H1 : substring (pre ++ needle ++ fol) 0 (len pre) = pre).
  { exact (substring_mid [] pre (needle ++ fol)). }
  assert (H2 : substring (pre ++ needle ++ fol) (len pre + len needle)
                 (len (pre ++ needle ++ fol)) = fol).
  { pose proof (substring_mid (pre ++ needle) fol []) as H2.
    rewrite app_nil_r, <- app_assoc, !len_app in *. rewrite <- H2 at 3.
    f_equal; lia. }
  now rewrite H1, H2.
Qed.


Lemma replaceFirst_absent (s needle rep : jsstring) :
  ~ occursIn needle s -> replaceFirst s needle rep = s.
Proof.
  intros Hn. unfold replaceFirst. cbv zeta. now rewrite indexOf_absent.
Qed.

Lemma finalSystemPrompt_same (p movie student : jsstring) :
  ~ occursIn filmPlaceholder p -> ~ occursIn studentPlaceholder p ->
  finalSystemPrompt p movie student = p.
Proof.
  intros Hf Hs. unfold finalSystemPrompt.
  now rewrite (replaceFirst_absent p filmPlaceholder), replaceFirst_absent.
Qed.

Lemma promptInstruction_own (default p : jsstring) :
  p <> [] -> promptInstruction default (Some p) = p.
Proof.
  intros Hne. unfold promptInstruction.
  destruct (Z.eqb_spec (len p) 0) as [E|_]; [|reflexivity].
  destruct p; [contradiction|]. unfold len in E. cbn [length] in E. lia.
Qed.

(** A request without system prompt, or with an empty one, gets the default
    prompt with its placeholders filled in. *)
Lemma routeSystemPrompt_default (default movie student : jsstring) :
  routeSystemPrompt default None movie student
  = finalSystemPrompt default movie student /\
  routeSystemPrompt default (Some []) movie student
  = finalSystemPrompt default movie student.
Proof. split; reflexivity. Qed.

(** X15. A system prompt of the caller's own that is not empty and holds
    neither placeholder is used as it is, whatever the default prompt. *)
Theorem routeSystemPrompt_own_prompt (default p movie student : jsstring) :
  p <> [] ->
  ~ occursIn filmPlaceholder p -> ~ occursIn studentPlaceholder p ->
  routeSystemPrompt default (Some p) movie student = p.
Proof.
  intros Hne Hf Hs. unfold routeSystemPrompt.
  rewrite promptInstruction_own by assumption.
  now apply finalSystemPrompt_same.
Qed.


(** X17. Only the first occurrence of a placeholder is replaced: a prompt
    without the film placeholder in which the student placeholder occurs
    twice still holds the student placeholder after filling in. *)
Theorem finalSystemPrompt_second_placeholder_stays (a b c movie student : jsstring) :
  ~ occursIn filmPlaceholder (a ++ studentPlaceholder ++ b ++ studentPlaceholder ++ c) ->
  occursIn studentPlaceholder
    (finalSystemPrompt (a ++ studentPlaceholder ++ b ++ studentPlaceholder ++ c)
                       movie student).
Proof.
  intros Hf. unfold finalSystemPrompt.
  rewrite (replaceFirst_absent _ filmPlaceholder) by assumption.
  set (s := a ++ studentPlaceholder ++ b ++ studentPlaceholder ++ c).
  assert (Hocc : occursIn studentPlaceholder s)
    by now exists a, (b ++ studentPlaceholder ++ c).
  destruct (indexOf_found _ _ Hocc) as (pre & fol & E & Hi & Hmin).
  rewrite E, replaceFirst_at by now rewrite <- E.
  assert (Hle : (length pre <= length a)%nat).
  { apply (Hmin a (b ++ studentPlaceholder ++ c)). now rewrite <- E. }
  assert (E2 : (pre ++ studentPlaceholder) ++ fol
               = (a ++ studentPlaceholder) ++ b ++ studentPlaceholder ++ c).
  { rewrite <- !app_assoc. now rewrite <- E. }
  apply app_eq_app in E2. destruct E2 as (l & [[E3 E4]|[E3 E4]]).
  - assert (l = []) as ->.
    { apply (f_equal (@length _)) in E3. rewrite !length_app in E3.
      destruct l; [reflexivity|cbn [length] in E3; lia]. }
    cbn [app] in E4. rewrite <- E4.
    exists (pre ++ getSubstitution studentPlaceholder pre
                     (b ++ studentPlaceholder ++ c) student ++ b), c.
    now rewrite <- !app_assoc.
  - rewrite E4.
    exists (pre ++ getSubstitution studentPlaceholder pre
                     (l ++ b ++ studentPlaceholder ++ c) student ++ l ++ b), c.
    now rewrite <- !app_assoc.
Qed.

Lemma not_occurs_of_indexOf (s needle : jsstring) :
  indexOf s needle = -1 -> ~ occursIn needle s.
Proof.
  intros Hi Hocc. destruct (indexOf_found _ _ Hocc) as (pre & _ & _ & E & _).
  pose proof (len_nonneg pre). lia.
Qed.


Lemma routeSystemPrompt_own_prompt_witness :
  routeSystemPrompt (lit "Film {{FILM_NAME}}.") (Some (lit "Grade kindly."))
                    (lit "Heat") (lit "Student")
  = lit "Grade kindly.".
Proof.
  apply routeSystemPrompt_own_prompt.
  - discriminate.
  - apply not_occurs_of_indexOf. vm_compute. reflexivity.
  - apply not_occurs_of_indexOf. vm_compute. reflexivity.
Defined.


Lemma finalSystemPrompt_second_placeholder_stays_witness :
  occursIn studentPlaceholder
    (finalSystemPrompt
       (lit "Hi " ++ studentPlaceholder ++ lit ", dear " ++ studentPlaceholder ++ lit "!")
       (lit "Heat") (lit "Student")).
Proof.
  apply finalSystemPrompt_second_placeholder_stays.
  apply not_occurs_of_indexOf. vm_compute. reflexivity.
Defined.

End Replace.

(** ** The chat history *)

Section History.

Context {G : Type}.
Variable createPrompt : moduleInfo -> jsstring -> jsstring.
Variable stringify : G -> jsstring -> jsstring.
Variable modules : list moduleInfo.

Lemma push_turns (examples : list (example G)) :
  forall history,
    fold_left
      (fun history ex =>
         match findModule modules (ex_module ex) with
         | Some exModule =>
           (history ++ [mkContent User (createPrompt exModule (ex_student_essay ex))])
             ++ [mkContent Model (stringify (ex_grade ex) (ex_feedback ex))]
         | None => history
         end)
      examples history
    = history ++ flat_map (exampleTurns createPrompt stringify modules) examples.
Proof.
  induction examples as [|ex rest IH]; intros history.
  - cbn. now rewrite app_nil_r.
  - cbn [fold_left flat_map]. rewrite IH. unfold exampleTurns at 2.
    destruct (findModule modules (ex_module ex)).
    + now rewrite <- !app_assoc.
    + reflexivity.
Qed.

Lemma buildHistory_closed (examples : list (example G)) (systemPrompt : jsstring) :
  buildHistory createPrompt stringify modules examples systemPrompt
  = [mkContent User systemPrompt; mkContent Model acknowledgement]
      ++ flat_map (exampleTurns createPrompt stringify modules) examples.
Proof.
  unfold buildHistory. cbv zeta.
  destruct examples as [|ex rest]; [reflexivity|].
  change (0 <? length (ex :: rest))%nat with true. cbv iota.
  apply push_turns.
Qed.

(** X18. The history given to the chat alternates user and model turns,
    starting with the user: it is the pair for the system prompt followed by
    one pair for each example whose module is in the list; examples of
    unknown modules add nothing. *)
Theorem buildHistory_roles (examples : list (example G)) (systemPrompt : jsstring) :
  map c_role (buildHistory createPrompt stringify modules examples systemPrompt)
  = concat (repeat [User; Model]
                   (S (length (filter (knownModule modules) examples)))).
Proof.
  rewrite buildHistory_closed. cbn [app map repeat concat]. do 2 f_equal.
  induction examples as [|ex rest IH]; [reflexivity|].
  cbn [flat_map filter]. rewrite map_app, IH.
  unfold exampleTurns, knownModule.
  destruct (findModule modules (ex_module ex)); reflexivity.
Qed.

End History.

(** * The grading route, end to end *)

Section RouteCandidate.

(** X20. What the first-to-last cut returns is a contiguous part of the
    trimmed response. *)
Theorem extractFirstToLast_slice (text : jsstring) :
  exists pre post, trim text = pre ++ extractFirstToLast text ++ post.
Proof.
  unfold extractFirstToLast. cbv zeta.
  destruct (negb (indexOf (trim text) lbrace =? -1) &&
            negb (lastIndexOf (trim text) rbrace =? -1)).
  - apply substring_slice.
  - exists [], []. now rewrite app_nil_r.
Qed.

(** X21. For a response that holds, between text without an opening brace
    and text without a closing brace, one text from brace to brace with no
    line feed and no carriage return in it, the parser is handed exactly
    that text. *)
Theorem routeCandidate_single_line (p1 m p2 : jsstring) :
  ~ In 123%N p1 -> ~ In 125%N p2 ->
  ~ In 10%N m -> ~ In 13%N m ->
  routeCandidate (p1 ++ (123%N :: m ++ [125%N]) ++ p2) = 123%N :: m ++ [125%N].
Proof.
  intros H1 H2 H10 H13. unfold routeCandidate.
  rewrite extractFirstToLast_around by assumption.
  apply fixedJson_same. right.
  split; intros [E|H]; try discriminate E;
    apply in_app_or in H as [H|[E|[]]]; try discriminate E; contradiction.
Qed.

Lemma routeCandidate_single_line_witness :
  routeCandidate (proseBefore ++ objEscClose ++ proseAfter) = objEscClose.
Proof.
  apply (routeCandidate_single_line proseBefore
           (q ++ lit "a" ++ q ++ lit ":" ++ q ++ bs ++ q ++ lit "}" ++ q) proseAfter);
    vm_compute; intros H; repeat (destruct H as [H|H]; [discriminate H|]); exact H.
Defined.

End RouteCandidate.
